(** * The scene edit store of the 3D room designer

    A shallow embedding of the zustand store declared at the top of
    [src/RoomDesignerApp.jsx] (lines 7-45): the list of placed objects,
    the selection, and the two stacks of JSON snapshots behind undo and
    redo.  The rendering code and the panels only read the store and call
    its operations; the handlers that call the store and the conditions
    under which their controls are drawn are modelled after the store.
    The second source file holds an earlier version of the same store,
    with the same four operations on objects and selection and no
    history. *)

From Stdlib Require Import PrimFloat.
From stdpp Require Import gmap strings list fin_maps.
From stdpp Require Import pretty.

Set Warnings "-register-all".
(* Decimal literals such as 0.45 denote the nearest binary64 value, as
   they do in JavaScript. *)
Set Warnings "-inexact-float".

(** ** JavaScript values

    Placed objects are plain JavaScript objects.  Their fields hold
    strings ([id], [name], [color]), numbers ([rotation]), arrays of
    numbers ([position], [size]) and nested objects ([meta]).  Numbers are
    IEEE binary64 values, as in JavaScript. *)

Module JS.

Inductive value :=
| VUndefined
| VNull
| VBool (b : bool)
| VNum (n : float)
| VStr (s : string)
| VArr (l : list value)
| VObj (m : gmap string value).

(** An object is a finite map from property names to values:
    [o !! k] is the own property [k] of [o]. *)
Abbreviation object := (gmap string value).

(** [{...o, ...patch}]: the properties of [patch] win, the other
    properties of [o] are kept. *)
Definition spread (o patch : object) : object := patch ∪ o.

(** [o.id === id] for a string [id]: strict equality holds only when the
    property exists and is that very string. *)
Definition id_is (id : string) (o : object) : bool :=
  match o !! "id" with
  | Some (VStr s) => bool_decide (s = id)
  | _ => false
  end.

(** No object of the set has the string [id] as its [id]. *)
Definition absent (id : string) (objs : list object) : Prop :=
  Forall (λ o, id_is id o = false) objs.

End JS.

(** ** JSON documents

    A snapshot is the text returned by [JSON.stringify].  The text is
    represented by the document it denotes, which is what [JSON.parse]
    reads back from it. *)

Module JSON.
Import JS.

Inductive json :=
| JNull
| JBool (b : bool)
| JNum (n : float)
| JStr (s : string)
| JArr (l : list json)
| JObj (m : gmap string json).

(** A number is written as a JSON number when it is finite, and as
    [null] otherwise; negative zero is written [0]. *)
Definition stringify_number (n : float) : json :=
  if PrimFloat.is_nan n || PrimFloat.is_infinity n then JNull
  else if PrimFloat.is_zero n then JNum PrimFloat.zero
  else JNum n.

(** [JSON.stringify]: [undefined] has no JSON text ([None]); it is
    dropped from objects and written as [null] inside arrays. *)
Fixpoint stringify (v : value) : option json :=
  match v with
  | VUndefined => None
  | VNull => Some JNull
  | VBool b => Some (JBool b)
  | VNum n => Some (stringify_number n)
  | VStr s => Some (JStr s)
  | VArr l => Some (JArr ((λ x, default JNull (stringify x)) <$> l))
  | VObj m => Some (JObj (omap stringify m))
  end.

(** [JSON.parse]. *)
Fixpoint parse (j : json) : value :=
  match j with
  | JNull => VNull
  | JBool b => VBool b
  | JNum n => VNum n
  | JStr s => VStr s
  | JArr l => VArr (parse <$> l)
  | JObj m => VObj (parse <$> m)
  end.

(** The text [JSON.stringify({ objects: objs })].  Its document is
    [{"objects": [d1, ..., dn]}]; it is kept as the list of the documents
    [d1 ... dn] of the array elements. *)
Abbreviation snapshot := (list (gmap string json)).

Definition stringify_objects (objs : list object) : list (gmap string json) :=
  (λ o : object, omap stringify o) <$> objs.

(** [JSON.parse(text).objects]. *)
Definition parse_objects (t : snapshot) : list object :=
  (λ d : gmap string json, parse <$> d) <$> t.

(** What a value becomes when it is written to JSON and read back. *)
Definition roundtrip_object (o : object) : object :=
  parse <$> omap stringify o.

Definition roundtrip (objs : list object) : list object :=
  parse_objects (stringify_objects objs).

(** An object set is JSON-representable when writing it to JSON and
    reading it back gives the same object set. *)
Definition representable (objs : list object) : Prop :=
  roundtrip objs = objs.

(** Values that JSON can hold as they are: no [undefined], and no number
    that is written differently from itself ([NaN], the infinities,
    negative zero). *)
Inductive json_safe : value → Prop :=
| safe_null : json_safe VNull
| safe_bool b : json_safe (VBool b)
| safe_num n : stringify_number n = JNum n → json_safe (VNum n)
| safe_str s : json_safe (VStr s)
| safe_arr l : (∀ i v, l !! i = Some v → json_safe v) → json_safe (VArr l)
| safe_obj m : (∀ k v, m !! k = Some v → json_safe v) → json_safe (VObj m).

End JSON.

(** ** The store *)

Module Store.
Import JS JSON.

Record store := mkStore {
  objects : list object;
  selectedId : option string;
  undoStack : list snapshot;
  redoStack : list snapshot
}.

(** The state the store is created with. *)
Definition init : store :=
  {| objects := []; selectedId := None; undoStack := []; redoStack := [] |}.

(** [set] with a partial state replaces the named fields only. *)
Definition set_objects (objs : list object) (s : store) : store :=
  {| objects := objs; selectedId := selectedId s;
     undoStack := undoStack s; redoStack := redoStack s |}.

(** [pushUndo]: the snapshot is taken from the objects the store holds
    when [pushUndo] runs. *)
Definition pushUndo (s : store) : store :=
  let snap := stringify_objects (objects s) in
  {| objects := objects s; selectedId := selectedId s;
     undoStack := undoStack s ++ [snap]; redoStack := [] |}.

Definition addObject (obj : object) (s : store) : store :=
  pushUndo (set_objects (objects s ++ [obj]) s).

Definition updateObject (id : string) (patch : object) (s : store) : store :=
  pushUndo
    (set_objects ((λ o, if id_is id o then spread o patch else o) <$> objects s) s).

Definition removeObject (id : string) (s : store) : store :=
  pushUndo
    {| objects := filter (λ o, id_is id o = false) (objects s);
       selectedId := if decide (selectedId s = Some id) then None else selectedId s;
       undoStack := undoStack s; redoStack := redoStack s |}.

Definition select (id : option string) (s : store) : store :=
  {| objects := objects s; selectedId := id;
     undoStack := undoStack s; redoStack := redoStack s |}.

(** [l.slice(0, -1)] *)
Definition slice_init {A} (l : list A) : list A := take (length l - 1) l.

(** [undo]: [last] is [undoStack[undoStack.length - 1]], absent exactly
    when the stack is empty, in which case the call returns at once. *)
Definition undo (s : store) : store :=
  match last (undoStack s) with
  | None => s
  | Some snap =>
      {| objects := parse_objects snap; selectedId := None;
         undoStack := slice_init (undoStack s);
         redoStack := redoStack s ++ [stringify_objects (objects s)] |}
  end.

Definition redo (s : store) : store :=
  match last (redoStack s) with
  | None => s
  | Some snap =>
      {| objects := parse_objects snap; selectedId := None;
         undoStack := undoStack s ++ [stringify_objects (objects s)];
         redoStack := slice_init (redoStack s) |}
  end.

(** The three operations that edit the object set. *)
Inductive mutation :=
| MAdd (obj : object)
| MUpdate (id : string) (patch : object)
| MRemove (id : string).

Definition mutate (m : mutation) (s : store) : store :=
  match m with
  | MAdd obj => addObject obj s
  | MUpdate id patch => updateObject id patch s
  | MRemove id => removeObject id s
  end.

(** What a mutation does to the object set alone. *)
Definition mutate_objects (m : mutation) (objs : list object) : list object :=
  match m with
  | MAdd obj => objs ++ [obj]
  | MUpdate id patch => (λ o, if id_is id o then spread o patch else o) <$> objs
  | MRemove id => filter (λ o, id_is id o = false) objs
  end.

(** A call of one of the six operations of the store. *)
Inductive op :=
| OAdd (obj : object)
| OUpdate (id : string) (patch : object)
| ORemove (id : string)
| OSelect (id : option string)
| OUndo
| ORedo.

Definition step (o : op) (s : store) : store :=
  match o with
  | OAdd obj => addObject obj s
  | OUpdate id patch => updateObject id patch s
  | ORemove id => removeObject id s
  | OSelect id => select id s
  | OUndo => undo s
  | ORedo => redo s
  end.

(** The state reached by a sequence of calls, first call first. *)
Definition run (ops : list op) (s : store) : store :=
  foldl (λ s o, step o s) s ops.

(** [selectedId] is [null] or the id of an object of the set. *)
Definition selection_ok (s : store) : bool :=
  match selectedId s with
  | None => true
  | Some i => existsb (id_is i) (objects s)
  end.

(** A caller that respects the selection: it selects only [null] or an
    object of the set, and its patches do not name [id]. *)
Definition op_guard (s : store) (o : op) : bool :=
  match o with
  | OSelect (Some i) => existsb (id_is i) (objects s)
  | OUpdate _ patch => bool_decide (patch !! "id" = None)
  | _ => true
  end.

Fixpoint guarded (ops : list op) (s : store) : bool :=
  match ops with
  | [] => true
  | o :: ops' => op_guard s o && guarded ops' (step o s)
  end.

End Store.

(** ** The furniture library

    The presets offered in the side bar and the object built from one of
    them ([RoomDesignerApp], lines 115-144). *)

Module App.
Import JS JSON Store.

Record preset := mkPreset {
  item_name : string;
  item_size : float * float * float;
  item_color : string
}.

Definition library : list (string * list preset) :=
  [ ("Seating", [ mkPreset "Sofa (2P)" (2, 0.9, 0.9) "#8b5cf6";
                  mkPreset "Armchair" (0.9, 0.9, 0.9) "#f97316" ]);
    ("Tables",  [ mkPreset "Coffee Table" (1.2, 0.35, 0.6) "#b09167";
                  mkPreset "Dining Table" (2, 0.75, 1) "#6b7280" ]);
    ("Storage", [ mkPreset "Bookshelf" (0.8, 2, 0.3) "#374151" ]);
    ("Decor",   [ mkPreset "Rug" (2, 0.02, 1.5) "#ef4444" ]) ]%float.

(** The object passed to [addObject]; [newId] is the string returned by
    [id("f")]. *)
Definition handleAddFromLib (newId : string) (item : preset) (category : string)
    : object :=
  let '(w, h, d) := item_size item in
  {[ "id" := VStr newId;
     "name" := VStr (item_name item);
     "category" := VStr category;
     "size" := VArr [VNum w; VNum h; VNum d];
     "position" := VArr [VNum 0; VNum (h / 2); VNum 0];
     "rotation" := VNum 0;
     "color" := VStr (if decide (item_color item = "") then "#cccccc"
                      else item_color item);
     "meta" := VObj ∅ ]}.

(** A number that JSON writes as itself. *)
Definition plain_number (n : float) : Prop := stringify_number n = JNum n.

End App.

(** ** Scenes used in the examples *)

Module Scenario.
Import JS JSON Store.

(** The object [handleAddFromLib] builds for the two-seat sofa preset,
    with id ["a"]. *)
Definition sofa : object :=
  {[ "id" := VStr "a";
     "name" := VStr "Sofa (2P)";
     "category" := VStr "Seating";
     "size" := VArr [VNum 2; VNum 0.9; VNum 0.9];
     "position" := VArr [VNum 0; VNum 0.45; VNum 0];
     "rotation" := VNum 0;
     "color" := VStr "#8b5cf6";
     "meta" := VObj ∅ ]}.

Definition rug : object :=
  {[ "id" := VStr "b";
     "name" := VStr "Rug";
     "category" := VStr "Decor";
     "size" := VArr [VNum 2; VNum 0.02; VNum 1.5];
     "position" := VArr [VNum 0; VNum 0.01; VNum 0];
     "rotation" := VNum 0;
     "color" := VStr "#ef4444";
     "meta" := VObj ∅ ]}.

(** The scene [[a]]. *)
Definition one_sofa : store := addObject sofa init.

(** Two additions, then two undos: the undo stack is empty again and the
    redo stack holds two snapshots. *)
Definition undone_twice : store :=
  run [OAdd sofa; OAdd rug; OUndo; OUndo] init.

(** A selection that names no object of the set. *)
Definition ghost_selected : store := select (Some "ghost") one_sofa.

Definition red : object := {[ "color" := VStr "#ff0000" ]}.
Definition black : object := {[ "color" := VStr "#000" ]}.
Definition rename_id : object := {[ "id" := VStr "b" ]}.

(** What the position field becomes when the inspector input holds text
    that [parseFloat] cannot read. *)
Definition nan_position : object :=
  {[ "position" := VArr [VNum nan; VNum 0.45; VNum 0] ]}.

End Scenario.

(** ** Small scenes *)

Module Sample.
Import JS JSON Store.

Definition tag : object := {[ "id" := VStr "t" ]}.
Definition tug : object := {[ "id" := VStr "u" ]}.


(** An object whose first coordinate is [NaN]. *)
Definition adrift : object :=
  {[ "id" := VStr "a"; "position" := VArr [VNum nan; VNum 0.45; VNum 0] ]}.

End Sample.

(** ** Size of a value

    The number of nodes of a value, the measure for induction on values
    that contain arrays and objects. *)

Module Measure.
Import JS.

Fixpoint vsize (v : value) : nat :=
  match v with
  | VArr l => S (sum_list (vsize <$> l))
  | VObj m => S (map_fold (λ _ x acc, vsize x + acc) 0 m)
  | _ => 1
  end.

End Measure.

(** ** Sequences of edits and of undos *)

Module History.
Import JS JSON Store.

(** The state after a sequence of mutating calls, first call first. *)
Definition edit (ms : list mutation) (s : store) : store :=
  foldl (λ s m, mutate m s) s ms.

(** [k] calls of [undo] in a row, and of [redo]. *)
Definition undo_times (k : nat) (s : store) : store := Nat.iter k undo s.
Definition redo_times (k : nat) (s : store) : store := Nat.iter k redo s.

(** A snapshot that reads back ([JSON.parse]) and writes again
    ([JSON.stringify]) as the same text. *)
Definition written (t : snapshot) : Prop :=
  stringify_objects (parse_objects t) = t.

(** Both stacks hold only such snapshots. *)
Definition history_ok (s : store) : Prop :=
  Forall written (undoStack s) ∧ Forall written (redoStack s).

(** How many objects of a list carry the id. *)
Definition count_id (i : string) (objs : list object) : nat :=
  length (filter (λ o, id_is i o = true) objs).

End History.

(** ** Where the id and the size of an object come from *)

Module Identity.
Import JS JSON Store.






End Identity.

(** ** The panels of the application

    The handlers of [RoomDesignerApp] (lines 102-266) that call the
    store, and the conditions under which their controls are on screen. *)

Module UI.
Import JS JSON Store App.

(** [id(prefix)] is [`${prefix}_${r}`], where [r] is the text cut out of
    [Math.random().toString(36)]; [r] is a parameter here. *)
Definition id (prefix r : string) : string := prefix +:+ "_" +:+ r.

(** [!selectedId] is false: the selection is neither [null] nor the
    empty string. *)
Definition truthy (sel : option string) : bool :=
  match sel with
  | Some i => negb (String.eqb i "")
  | None => false
  end.

(** [handleColorChange] (lines 146-149). *)
Definition handleColorChange (hex : string) (s : store) : store :=
  if truthy (selectedId s) then
    match selectedId s with
    | Some i => updateObject i {[ "color" := VStr hex ]} s
    | None => s
    end
  else s.

(** The object the inspector shows: [objects.find(o => o.id ===
    selectedId)] when [selectedId] is truthy (lines 226-229). *)
Definition inspected (s : store) : option object :=
  match selectedId s with
  | Some i => if truthy (Some i) then find (id_is i) (objects s) else None
  | None => None
  end.

(** [v[i]] for an index [i].  [None] is the [TypeError] raised on
    [undefined] and [null].  A string gives its [i]-th character, one
    character of the model for one of JavaScript (text in ASCII). *)
Definition elem (v : value) (i : nat) : option value :=
  match v with
  | VUndefined | VNull => None
  | VBool _ | VNum _ => Some VUndefined
  | VStr s =>
      Some (match String.get i s with
            | Some c => VStr (String c EmptyString)
            | None => VUndefined
            end)
  | VArr l => Some (default VUndefined (l !! i))
  | VObj m => Some (default VUndefined (m !! pretty i))
  end.

(** [o.k]: the property, [undefined] when the object has none. *)
Definition prop (o : object) (k : string) : value :=
  default VUndefined (o !! k).

(** What a user can do on the page that reaches the store.  The two
    buttons of the top toolbar and the export button only show an alert,
    and the category and mode buttons only change what is drawn. *)
Inductive event :=
| EAdd (cat item : nat) (r : string)
    (** the add button of preset [item] of category [cat]; [r] is the
        random part of the new id *)
| EClick (i : nat)            (** a click on the [i]-th mesh *)
| EUndo                       (** the undo button of the side bar *)
| ERedo                       (** the redo button of the side bar *)
| EName (v : string)          (** typing in the name field *)
| EColor (hex : string)       (** picking a color *)
| EPosX (x : float)           (** typing in the X field; [x] is what
                                  [parseFloat] returns *)
| EPosZ (z : float)           (** typing in the Z field *)
| ERotation (a : float)       (** typing in the rotation field *)
| EDelete                     (** the delete button *)
| EResetPosition.             (** the reset-position button *)

(** What handling an event comes to. *)
Inductive outcome :=
| Done (s : store)    (** the handler returned, leaving this state *)
| NotRendered         (** the control is not on the page in this state *)
| Throws              (** the handler, or drawing its control, raised a
                          [TypeError] *)
| Untyped.            (** the handler stored a selection that is not a
                          string: outside the states modelled here *)

(** What drawing the inspector comes to (lines 226-257).  With an
    object to show, the fields are drawn from [obj.name], [obj.color],
    [obj.position[0]], [obj.position[2]] and [obj.rotation]; the two reads
    of the position raise a [TypeError] when [obj.position] is [undefined]
    or [null]. *)
Inductive view :=
| Closed                (** no object to show: the hint or the fallback *)
| Opened (obj : object) (** the fields and the buttons of [obj] *)
| Broken.               (** drawing raised a [TypeError] *)

Definition draw_inspector (s : store) : view :=
  match inspected s with
  | Some obj =>
      match elem (prop obj "position") 0, elem (prop obj "position") 2 with
      | Some _, Some _ => Opened obj
      | _, _ => Broken
      end
  | None => Closed
  end.

(** A control of the inspector: on the page when the inspector is drawn
    with an object, which the handler receives with its [id]. *)
Definition inspector (s : store) (k : string → object → outcome) : outcome :=
  match draw_inspector s with
  | Opened obj =>
      match obj !! "id" with
      | Some (VStr i) => k i obj
      | _ => Untyped
      end
  | Closed => NotRendered
  | Broken => Throws
  end.

(** The patches of the three position controls (lines 243, 244, 253):
    each reads the coordinates it keeps from the current position. *)
Definition patch_x (obj : object) (x : float) : option object :=
  let pos := prop obj "position" in
  p1 ← elem pos 1; p2 ← elem pos 2;
  Some {[ "position" := VArr [VNum x; p1; p2] ]}.

Definition patch_z (obj : object) (z : float) : option object :=
  let pos := prop obj "position" in
  p0 ← elem pos 0; p1 ← elem pos 1;
  Some {[ "position" := VArr [p0; p1; VNum z] ]}.

Definition patch_reset (obj : object) : option object :=
  let pos := prop obj "position" in
  p1 ← elem pos 1;
  Some {[ "position" := VArr [VNum 0; p1; VNum 0] ]}.

Definition handle (e : event) (s : store) : outcome :=
  match e with
  | EAdd cat item r =>
      match library !! cat with
      | Some (category, items) =>
          match items !! item with
          | Some it => Done (addObject (handleAddFromLib (id "f" r) it category) s)
          | None => NotRendered
          end
      | None => NotRendered
      end
  | EClick i =>
      match objects s !! i with
      | Some o =>
          match o !! "id" with
          | Some (VStr j) => Done (select (Some j) s)
          | _ => Untyped
          end
      | None => NotRendered
      end
  | EUndo => Done (undo s)
  | ERedo => Done (redo s)
  | EName v =>
      inspector s (λ i _, Done (updateObject i {[ "name" := VStr v ]} s))
  | EColor hex =>
      inspector s (λ _ _, Done (handleColorChange hex s))
  | EPosX x =>
      inspector s (λ i obj,
        match patch_x obj x with
        | Some patch => Done (updateObject i patch s)
        | None => Throws
        end)
  | EPosZ z =>
      inspector s (λ i obj,
        match patch_z obj z with
        | Some patch => Done (updateObject i patch s)
        | None => Throws
        end)
  | ERotation a =>
      inspector s (λ i _, Done (updateObject i {[ "rotation" := VNum a ]} s))
  | EDelete =>
      inspector s (λ i _, Done (removeObject i s))
  | EResetPosition =>
      inspector s (λ i obj,
        match patch_reset obj with
        | Some patch => Done (updateObject i patch s)
        | None => Throws
        end)
  end.

(** A sequence of events, first event first; it stops at the first event
    that does not return a state. *)
Fixpoint session (es : list event) (s : store) : outcome :=
  match es with
  | [] => Done s
  | e :: es' =>
      match handle e s with
      | Done s' => session es' s'
      | other => other
      end
  end.

(** A coordinate as the panels leave it: a number, or [null] once a
    number that JSON cannot write went through a snapshot. *)
Definition coordinate (v : value) : Prop :=
  v = VNull ∨ ∃ n, v = VNum n.

(** An object as the application places and edits it: an id made by
    [id("f")], the category and the size of a preset of the library,
    three coordinates, a name, a color, a rotation and an empty [meta]. *)
Definition placed (o : object) : Prop :=
  (∃ r, o !! "id" = Some (VStr (id "f" r))) ∧
  (∃ cat category items it w h d,
      library !! cat = Some (category, items) ∧ it ∈ items ∧
      item_size it = (w, h, d) ∧
      o !! "category" = Some (VStr category) ∧
      o !! "size" = Some (VArr [VNum w; VNum h; VNum d])) ∧
  (∃ x y z, coordinate x ∧ coordinate y ∧ coordinate z ∧
            o !! "position" = Some (VArr [x; y; z])) ∧
  (∃ name, o !! "name" = Some (VStr name)) ∧
  (∃ color, o !! "color" = Some (VStr color)) ∧
  (∃ a, coordinate a ∧ o !! "rotation" = Some a) ∧
  o !! "meta" = Some (VObj ∅).

(** What the inspector writes: a name, a color, a rotation or a
    position, never another field. *)
Inductive inspector_patch : object → Prop :=
| patch_name v : inspector_patch {[ "name" := VStr v ]}
| patch_color hex : inspector_patch {[ "color" := VStr hex ]}
| patch_rotation a : inspector_patch {[ "rotation" := VNum a ]}
| patch_position x y z :
    coordinate x → coordinate y → coordinate z →
    inspector_patch {[ "position" := VArr [x; y; z] ]}.

(** The fields no control of the page writes. *)
Definition fixed_fields (o : object) : list (option value) :=
  [o !! "id"; o !! "category"; o !! "size"; o !! "meta"].

(** The events that edit or select an object: all but adding, deleting,
    undoing and redoing. *)
Definition edits (e : event) : bool :=
  match e with
  | EAdd _ _ _ | EDelete | EUndo | ERedo => false
  | _ => true
  end.

(** What the pages of the application keep true of the store. *)
Definition app_ok (s : store) : Prop :=
  Forall placed (objects s) ∧
  Forall (λ t, Forall placed (parse_objects t)) (undoStack s) ∧
  Forall (λ t, Forall placed (parse_objects t)) (redoStack s) ∧
  selection_ok s = true.

(** The reads a frame makes of every mesh: [item.position[0..2]], and
    [item.size[1]] for the label of the selected one (lines 53-66). *)
Definition mesh_reads (o : object) : option (list value) :=
  p0 ← elem (prop o "position") 0;
  p1 ← elem (prop o "position") 1;
  p2 ← elem (prop o "position") 2;
  h ← elem (prop o "size") 1;
  Some [p0; p1; p2; h].

End UI.

(** ** The store without history

    The store of the second source file (lines 7-27): objects and
    selection only. *)

Module Plain.
Import JS.

Record store := mkStore {
  objects : list object;
  selectedId : option string
}.

Definition init : store := {| objects := []; selectedId := None |}.

Definition addObject (obj : object) (s : store) : store :=
  {| objects := objects s ++ [obj]; selectedId := selectedId s |}.

Definition select (id : option string) (s : store) : store :=
  {| objects := objects s; selectedId := id |}.

Definition updateObject (id : string) (patch : object) (s : store) : store :=
  {| objects := (λ o, if id_is id o then spread o patch else o) <$> objects s;
     selectedId := selectedId s |}.

Definition removeObject (id : string) (s : store) : store :=
  {| objects := filter (λ o, id_is id o = false) (objects s);
     selectedId := if decide (selectedId s = Some id) then None else selectedId s |}.

(** A call of one of its four operations. *)
Inductive op :=
| OAdd (obj : object)
| OSelect (id : option string)
| OUpdate (id : string) (patch : object)
| ORemove (id : string).

Definition step (o : op) (s : store) : store :=
  match o with
  | OAdd obj => addObject obj s
  | OSelect id => select id s
  | OUpdate id patch => updateObject id patch s
  | ORemove id => removeObject id s
  end.

Definition run (ops : list op) (s : store) : store :=
  foldl (λ s o, step o s) s ops.

(** The same call on the store with history. *)
Definition with_history (o : op) : Store.op :=
  match o with
  | OAdd obj => Store.OAdd obj
  | OSelect id => Store.OSelect id
  | OUpdate id patch => Store.OUpdate id patch
  | ORemove id => Store.ORemove id
  end.

(** What the store with history shows of objects and selection. *)
Definition scene (s : Store.store) : store :=
  {| objects := Store.objects s; selectedId := Store.selectedId s |}.

(** [handleAdd] (lines 103-113); [r] is the text cut out of
    [Math.random().toString(36)], which is the whole id here. *)
Definition handleAdd (r : string) (item : App.preset) : object :=
  let '(w, h, d) := App.item_size item in
  {[ "id" := VStr r;
     "name" := VStr (App.item_name item);
     "size" := VArr [VNum w; VNum h; VNum d];
     "position" := VArr [VNum 0; VNum (h / 2); VNum 0];
     "rotation" := VNum 0;
     "color" := VStr (App.item_color item) ]}.

(** The edit panel (lines 131-154): absent when [selectedId] is falsy;
    otherwise it looks the selected object up and reads its color, which
    raises a [TypeError] when there is no such object. *)
Inductive panel_view :=
| Hidden
| Shown (obj : object)
| Crash.

Definition panel (s : store) : panel_view :=
  if UI.truthy (selectedId s) then
    match selectedId s with
    | Some i =>
        match find (id_is i) (objects s) with
        | Some obj => Shown obj
        | None => Crash
        end
    | None => Hidden
    end
  else Hidden.

(** What a user can do on that page; a preset is any record of name,
    size and color. *)
Inductive event :=
| EAdd (item : App.preset) (r : string)
| EClick (i : nat)
| EColor (hex : string)
| EDelete.

Inductive outcome :=
| Done (s : store)
| NotRendered
| Throws
| Untyped.

Definition on_panel (s : store) (k : string → outcome) : outcome :=
  match panel s with
  | Shown obj =>
      match obj !! "id" with
      | Some (VStr i) => k i
      | _ => Untyped
      end
  | Hidden => NotRendered
  | Crash => Throws
  end.

Definition handle (e : event) (s : store) : outcome :=
  match e with
  | EAdd item r => Done (addObject (handleAdd r item) s)
  | EClick i =>
      match objects s !! i with
      | Some o =>
          match o !! "id" with
          | Some (VStr j) => Done (select (Some j) s)
          | _ => Untyped
          end
      | None => NotRendered
      end
  | EColor hex =>
      on_panel s (λ i, Done (updateObject i {[ "color" := VStr hex ]} s))
  | EDelete =>
      on_panel s (λ i, Done (removeObject i s))
  end.

(** A sequence of events; the page is drawn again after each one, and a
    panel that cannot be drawn ends the session. *)
Fixpoint session (es : list event) (s : store) : outcome :=
  match panel s with
  | Crash => Throws
  | _ =>
      match es with
      | [] => Done s
      | e :: es' =>
          match handle e s with
          | Done s' => session es' s'
          | other => other
          end
      end
  end.

(** Every object has a string for [id], and the selection is [null] or
    the id of an object of the set. *)
Definition page_ok (s : store) : Prop :=
  Forall (λ o, ∃ i, o !! "id" = Some (VStr i)) (objects s) ∧
  match selectedId s with
  | Some i => existsb (id_is i) (objects s) = true
  | None => True
  end.

End Plain.

(** ** Two visits of the page *)

Module Visit.
Import JS JSON Store App.

(** Adding the rug and clicking on it. *)
Definition rug_events : list UI.event := [UI.EAdd 3 0 "k3x"; UI.EClick 0].

Definition rug_selected : store :=
  select (Some "f_k3x")
    (addObject
       (handleAddFromLib "f_k3x" (mkPreset "Rug" (2, 0.02, 1.5) "#ef4444")%float "Decor")
       init).

(** Then typing text that is no number in the X field, and undoing. *)
Definition rug_moved_events : list UI.event :=
  rug_events ++ [UI.EPosX nan; UI.EUndo].

Definition rug_moved : store :=
  undo (updateObject "f_k3x"
          {[ "position" := VArr [VNum nan; VNum 0.01; VNum 0] ]} rug_selected).

(** On the page of the store without history: adding a chair, clicking
    on it and deleting it. *)
Definition chair : preset := mkPreset "Chair" (0.9, 0.9, 0.9)%float "#f97316".

Definition chair_events : list Plain.event :=
  [Plain.EAdd chair "q7"; Plain.EClick 0; Plain.EDelete].

Definition chair_deleted : Plain.store :=
  Plain.removeObject "q7"
    (Plain.select (Some "q7") (Plain.addObject (Plain.handleAdd "q7" chair) Plain.init)).

End Visit.

Import JS JSON Store App.

(** ** History linearity *)

Lemma mutate_objects_spec (m : mutation) (s : store) :
  objects (mutate m s) = mutate_objects m (objects s).
Proof. by destruct m. Qed.

(** C3. Right after [addObject], [updateObject] or [removeObject], in any
    state, [redoStack] is empty and [undoStack] is the old stack with
    exactly one more snapshot on top, the snapshot of the object set the
    call produced. *)
Theorem history_linearity (m : mutation) (s : store) :
  redoStack (mutate m s) = [] ∧
  undoStack (mutate m s) = undoStack s ++ [stringify_objects (objects (mutate m s))] ∧
  length (undoStack (mutate m s)) = S (length (undoStack s)).
Proof.
  destruct m; simpl; (split; [done|]); (split; [done|]);
    rewrite length_app; simpl; lia.
Qed.

(** ** Snapshots *)

Lemma roundtrip_map (objs : list object) :
  roundtrip objs = roundtrip_object <$> objs.
Proof. unfold roundtrip, parse_objects, stringify_objects. by rewrite <- list_fmap_compose. Qed.

Lemma roundtrip_length (objs : list object) :
  length (roundtrip objs) = length objs.
Proof. by rewrite roundtrip_map, length_fmap. Qed.

(** The typed snapshot functions agree with [stringify] and [parse] on the
    value [{ objects: objs }]. *)
Lemma stringify_scene (objs : list object) :
  stringify (VObj {[ "objects" := VArr (VObj <$> objs) ]})
  = Some (JObj {[ "objects" := JArr (JObj <$> stringify_objects objs) ]}).
Proof.
  simpl. do 2 f_equal.
  rewrite omap_singleton_Some with (y := JArr (JObj <$> stringify_objects objs)).
  - done.
  - simpl. do 2 f_equal. unfold stringify_objects.
    rewrite <- !list_fmap_compose. done.
Qed.

Lemma parse_scene (t : snapshot) :
  parse (JObj {[ "objects" := JArr (JObj <$> t) ]})
  = VObj {[ "objects" := VArr (VObj <$> parse_objects t) ]}.
Proof.
  simpl. f_equal. rewrite map_fmap_singleton. simpl.
  unfold parse_objects. by rewrite <- !list_fmap_compose.
Qed.

Lemma json_safe_roundtrip (v : value) :
  json_safe v → parse <$> stringify v = Some v.
Proof.
  induction 1 as [|b|n Hn|str|l Hl IH|m Hm IH]; simpl; try done.
  - by rewrite Hn.
  - do 2 f_equal. apply list_eq. intros i.
    rewrite !list_lookup_fmap.
    destruct (l !! i) as [v|] eqn:Hi; [|done]. simpl.
    specialize (IH i v Hi).
    destruct (stringify v) as [j|]; [|done].
    simpl in *. congruence.
  - do 2 f_equal. apply map_eq. intros k.
    rewrite lookup_fmap, lookup_omap.
    destruct (m !! k) as [v|] eqn:Hk; [|done]. simpl.
    exact (IH k v Hk).
Qed.

Lemma json_safe_representable (objs : list object) :
  Forall (λ o, json_safe (VObj o)) objs → representable objs.
Proof.
  intros H. unfold representable. rewrite roundtrip_map.
  induction H as [|o objs Ho _ IH]; [done|].
  rewrite fmap_cons, IH. f_equal.
  apply json_safe_roundtrip in Ho. simpl in Ho.
  unfold roundtrip_object. congruence.
Qed.

Lemma json_safe_numbers (l : list float) :
  Forall plain_number l → json_safe (VArr (VNum <$> l)).
Proof.
  intros H. apply safe_arr. intros i v Hi.
  apply list_lookup_fmap_Some in Hi as (n & -> & Hn).
  apply safe_num. by eapply Forall_lookup_1 in H.
Qed.

Lemma json_safe_fields (m : object) :
  map_Forall (λ _ v, json_safe v) m → json_safe (VObj m).
Proof. intros H. apply safe_obj. exact H. Qed.

(** An object built from a preset with plain numbers holds only values
    that JSON can hold, whatever its id and category. *)
Lemma handleAddFromLib_safe (newId : string) (item : preset) (category : string) :
  (let '(w, h, d) := item_size item in
   Forall plain_number [w; h; d; (h / 2)%float]) →
  json_safe (VObj (handleAddFromLib newId item category)).
Proof.
  unfold handleAddFromLib. destruct (item_size item) as [[w h] d]. intros H.
  apply Forall_cons in H as [Hw H]. apply Forall_cons in H as [Hh H].
  apply Forall_cons in H as [Hd H]. apply Forall_cons in H as [Hh2 _].
  apply json_safe_fields.
  repeat apply map_Forall_insert_2; try apply map_Forall_empty;
    try apply safe_str.
  - apply (json_safe_numbers [w; h; d]). by repeat constructor.
  - apply (json_safe_numbers [0%float; (h / 2)%float; 0%float]).
    by repeat constructor.
  - by apply safe_num.
  - apply safe_obj. intros k v Hk. by rewrite lookup_empty in Hk.
Qed.

(** Every object the application places from its library is
    JSON-representable. *)
Lemma library_objects_representable (newId category : string) (item : preset) :
  item ∈ mjoin (snd <$> library) →
  representable [handleAddFromLib newId item category].
Proof.
  intros Hin. apply json_safe_representable. constructor; [|constructor].
  apply handleAddFromLib_safe.
  vm_compute in Hin.
  repeat (apply elem_of_cons in Hin as [->|Hin];
          [by repeat constructor|]).
  by apply elem_of_nil in Hin.
Qed.

Example sofa_from_library :
  handleAddFromLib "a" (mkPreset "Sofa (2P)" (2, 0.9, 0.9) "#8b5cf6")%float "Seating"
  = Scenario.sofa.
Proof. vm_compute. reflexivity. Qed.

Lemma slice_init_snoc {A} (l : list A) (x : A) : slice_init (l ++ [x]) = l.
Proof.
  unfold slice_init. rewrite length_app. simpl.
  replace (length l + 1 - 1) with (length l) by lia.
  apply take_app_length.
Qed.

(** ** Undo and redo *)

Lemma undo_nonempty (s : store) (st : list snapshot) (snap : snapshot) :
  undoStack s = st ++ [snap] →
  undo s = {| objects := parse_objects snap; selectedId := None;
              undoStack := st;
              redoStack := redoStack s ++ [stringify_objects (objects s)] |}.
Proof. intros E. unfold undo. by rewrite E, last_snoc, slice_init_snoc. Qed.

Lemma redo_nonempty (s : store) (st : list snapshot) (snap : snapshot) :
  redoStack s = st ++ [snap] →
  redo s = {| objects := parse_objects snap; selectedId := None;
              undoStack := undoStack s ++ [stringify_objects (objects s)];
              redoStack := st |}.
Proof. intros E. unfold redo. by rewrite E, last_snoc, slice_init_snoc. Qed.

Lemma mutate_undoStack (m : mutation) (s : store) :
  undoStack (mutate m s) = undoStack s ++ [stringify_objects (objects (mutate m s))].
Proof. by destruct m. Qed.

Lemma undo_mutate (m : mutation) (s : store) :
  undo (mutate m s) =
  {| objects := roundtrip (objects (mutate m s)); selectedId := None;
     undoStack := undoStack s;
     redoStack := [stringify_objects (objects (mutate m s))] |}.
Proof.
  rewrite (undo_nonempty _ _ _ (mutate_undoStack m s)).
  by destruct m.
Qed.





(** C5. On an empty undo stack [undo] returns the state it was given:
    objects, selection and both stacks are unchanged; [redo] does the same
    on an empty redo stack.  Both are total functions: no call fails. *)
Theorem empty_history_noop (s : store) :
  (undoStack s = [] → undo s = s) ∧ (redoStack s = [] → redo s = s).
Proof.
  split; intros E; [unfold undo | unfold redo]; by rewrite E.
Qed.

Lemma empty_history_noop_witness :
  undo (undo Scenario.one_sofa) = undo Scenario.one_sofa ∧
  redo Scenario.one_sofa = Scenario.one_sofa.
Proof.
  split.
  - apply (empty_history_noop (undo Scenario.one_sofa)). vm_compute. reflexivity.
  - apply (empty_history_noop Scenario.one_sofa). vm_compute. reflexivity.
Defined.

(** The claim C4 read for every state fails where the undo stack is empty
    and the redo stack is not: [undo] does nothing and [redo] then brings
    in the snapshot on top of the redo stack.  After two additions and two
    undos the scene is [[a]] and the round trip leaves [[a; b]]. *)
Lemma redo_after_idle_undo :
  undoStack Scenario.undone_twice = [] ∧
  objects Scenario.undone_twice = [Scenario.sofa] ∧
  objects (redo (undo Scenario.undone_twice)) = [Scenario.sofa; Scenario.rug] ∧
  objects (redo (undo Scenario.undone_twice)) ≠ objects Scenario.undone_twice.
Proof.
  split; [vm_compute; reflexivity|].
  split; [vm_compute; reflexivity|].
  split; [vm_compute; reflexivity|].
  intros H. apply (f_equal length) in H. vm_compute in H. discriminate.
Qed.

(** Whatever the objects hold, the round trip gives the JSON image of the
    object set. *)
Lemma undo_redo_json_image (s : store) :
  undoStack s ≠ [] → objects (redo (undo s)) = roundtrip (objects s).
Proof.
  intros Hne.
  destruct (last (undoStack s)) as [snap|] eqn:El.
  - apply last_Some in El as [st Est].
    rewrite (undo_nonempty s st snap Est).
    by erewrite redo_nonempty by reflexivity.
  - by apply last_None in El.
Qed.

(** C4 (amended). From a state whose undo stack is not empty and whose
    object set is JSON-representable, [redo] right after [undo] gives back
    exactly the object set that was there before the [undo]. *)
Theorem undo_redo_roundtrip (s : store) :
  undoStack s ≠ [] →
  representable (objects s) →
  objects (redo (undo s)) = objects s.
Proof.
  intros Hne Hrep.
  rewrite undo_redo_json_image by exact Hne.
  exact Hrep.
Qed.

Lemma undo_redo_roundtrip_witness :
  objects (redo (undo Scenario.one_sofa)) = objects Scenario.one_sofa.
Proof.
  apply undo_redo_roundtrip.
  - vm_compute. discriminate.
  - vm_compute. reflexivity.
Defined.

(** Representability is needed: a [NaN] coordinate, which the inspector
    writes when [parseFloat] cannot read its input, comes back from the
    round trip as [null]. *)
Example nan_comes_back_null :
  let s := updateObject "a" Scenario.nan_position Scenario.one_sofa in
  (objects s !! 0) ≫= (.!! "position")
    = Some (VArr [VNum nan; VNum 0.45; VNum 0]) ∧
  (objects (redo (undo s)) !! 0) ≫= (.!! "position")
    = Some (VArr [VNull; VNum 0.45; VNum 0]).
Proof. split; vm_compute; reflexivity. Qed.

(** ** Calls that name an id *)

Lemma absent_update (id : string) (patch : object) (objs : list object) :
  absent id objs →
  (λ o, if id_is id o then spread o patch else o) <$> objs = objs.
Proof.
  induction 1 as [|o objs Ho _ IH]; [done|].
  rewrite fmap_cons, Ho. by f_equal.
Qed.

Lemma absent_remove (id : string) (objs : list object) :
  absent id objs → filter (λ o, id_is id o = false) objs = objs.
Proof.
  induction 1 as [|o objs Ho _ IH]; [done|].
  rewrite filter_cons_True by done. by f_equal.
Qed.

Lemma updateObject_lookup (s : store) (id : string) (patch : object) (i : nat) :
  objects (updateObject id patch s) !! i
  = (λ o, if id_is id o then spread o patch else o) <$> (objects s !! i).
Proof. simpl. apply list_lookup_fmap. Qed.

Lemma spread_patched (o patch : object) (k : string) (v : value) :
  patch !! k = Some v → spread o patch !! k = Some v.
Proof. intros H. unfold spread. by apply lookup_union_Some_l. Qed.

Lemma spread_kept (o patch : object) (k : string) :
  patch !! k = None → spread o patch !! k = o !! k.
Proof. intros H. unfold spread. by apply lookup_union_r. Qed.

(** C6. When no object of the set has id [targetId], [updateObject] and
    [removeObject] return a state with the very same object list: same
    objects, same order, same fields.  Both are total: nothing is
    raised. *)
Theorem missing_id_tolerance (s : store) (targetId : string) (patch : object) :
  absent targetId (objects s) →
  objects (updateObject targetId patch s) = objects s ∧
  objects (removeObject targetId s) = objects s.
Proof.
  intros H. split; simpl.
  - by apply absent_update.
  - by apply absent_remove.
Qed.

Lemma missing_id_tolerance_witness :
  objects (updateObject "missing" Scenario.black Scenario.one_sofa)
    = objects Scenario.one_sofa ∧
  objects (removeObject "missing" Scenario.one_sofa) = objects Scenario.one_sofa.
Proof.
  apply missing_id_tolerance.
  repeat constructor.
Defined.



(** C10, as stated, fails on the selection.  When [selectedId] is an id
    that no object carries (the store accepts any id in [select]),
    [removeObject] of that id finds [selectedId === id] and clears the
    selection although the object set is unchanged. *)
Lemma remove_absent_clears_selection :
  absent "ghost" (objects Scenario.ghost_selected) ∧
  objects (removeObject "ghost" Scenario.ghost_selected)
    = objects Scenario.ghost_selected ∧
  selectedId Scenario.ghost_selected = Some "ghost" ∧
  selectedId (removeObject "ghost" Scenario.ghost_selected) = None ∧
  selectedId (removeObject "ghost" Scenario.ghost_selected)
    ≠ selectedId Scenario.ghost_selected.
Proof.
  split; [repeat constructor|].
  split; [vm_compute; reflexivity|].
  repeat split. vm_compute. discriminate.
Qed.

(** C10 (amended). When no object of the set has id [targetId], both
    [updateObject] and [removeObject] leave the object set unchanged and
    still append one snapshot, of that unchanged object set, to
    [undoStack] and empty [redoStack].  [updateObject] leaves [selectedId]
    unchanged; [removeObject] leaves it unchanged unless it is [targetId]
    itself, in which case it becomes [null]. *)
Theorem absent_id_grows_history (s : store) (targetId : string) (patch : object) :
  absent targetId (objects s) →
  (objects (updateObject targetId patch s) = objects s ∧
   selectedId (updateObject targetId patch s) = selectedId s ∧
   undoStack (updateObject targetId patch s)
     = undoStack s ++ [stringify_objects (objects s)] ∧
   redoStack (updateObject targetId patch s) = []) ∧
  (objects (removeObject targetId s) = objects s ∧
   undoStack (removeObject targetId s)
     = undoStack s ++ [stringify_objects (objects s)] ∧
   redoStack (removeObject targetId s) = [] ∧
   (selectedId s ≠ Some targetId →
      selectedId (removeObject targetId s) = selectedId s) ∧
   (selectedId s = Some targetId →
      selectedId (removeObject targetId s) = None)).
Proof.
  intros H. split.
  - simpl. rewrite (absent_update _ _ _ H). done.
  - simpl. rewrite (absent_remove _ _ H). repeat split.
    + intros Hne. by case_decide.
    + intros He. by case_decide.
Qed.

Lemma absent_id_grows_history_witness :
  undoStack (updateObject "missing" Scenario.black Scenario.one_sofa)
    = undoStack Scenario.one_sofa ++ [stringify_objects [Scenario.sofa]] ∧
  redoStack (removeObject "missing" Scenario.one_sofa) = [] ∧
  selectedId (removeObject "ghost" Scenario.ghost_selected) = None.
Proof.
  destruct (absent_id_grows_history Scenario.one_sofa "missing" Scenario.black)
    as [(_ & _ & Hu & _) (_ & _ & Hr & _)]; [repeat constructor|].
  destruct (absent_id_grows_history Scenario.ghost_selected "ghost" Scenario.black)
    as [_ (_ & _ & _ & _ & Hs)]; [repeat constructor|].
  split; [exact Hu|]. split; [exact Hr|]. apply Hs. reflexivity.
Defined.

(** ** Identity and size of an object *)


(** ** Sequences of additions *)


Lemma run_adds_objects (objs : list object) (s : store) :
  objects (run (OAdd <$> objs) s) = objects s ++ objs.
Proof.
  revert s. induction objs as [|o objs IH]; intros s.
  - simpl. by rewrite app_nil_r.
  - rewrite fmap_cons. change (run (OAdd o :: (OAdd <$> objs)) s)
      with (run (OAdd <$> objs) (addObject o s)).
    rewrite IH. simpl. by rewrite <- app_assoc.
Qed.

Lemma id_is_carried (o : object) (i j : string) :
  o !! "id" = Some (VStr i) → id_is j o = bool_decide (i = j).
Proof. intros H. unfold id_is. by rewrite H. Qed.

Lemma filter_id_none (objs : list object) (ids : list string) (j : string) :
  Forall2 (λ o i, o !! "id" = Some (VStr i)) objs ids →
  j ∉ ids →
  filter (λ o, id_is j o = true) objs = [].
Proof.
  induction 1 as [|o i objs ids Hoi _ IH]; intros Hj; [done|].
  apply not_elem_of_cons in Hj as [Hne Hj].
  rewrite filter_cons_False.
  - by apply IH.
  - rewrite (id_is_carried o i j Hoi), bool_decide_eq_true. congruence.
Qed.

Lemma filter_id_one (objs : list object) (ids : list string) (j : string) :
  Forall2 (λ o i, o !! "id" = Some (VStr i)) objs ids →
  NoDup ids →
  j ∈ ids →
  ∃ o, o ∈ objs ∧ o !! "id" = Some (VStr j) ∧
       filter (λ o, id_is j o = true) objs = [o].
Proof.
  induction 1 as [|o i objs ids Hoi Hrest IH]; intros Hnd Hj.
  - by apply elem_of_nil in Hj.
  - apply NoDup_cons in Hnd as [Hi Hnd].
    destruct (decide (i = j)) as [->|Hne].
    + exists o. split; [by left|]. split; [done|].
      rewrite filter_cons_True
        by (rewrite (id_is_carried o j j Hoi); by apply bool_decide_eq_true).
      f_equal. by eapply filter_id_none.
    + apply elem_of_cons in Hj as [Hj|Hj]; [congruence|].
      destruct (IH Hnd Hj) as (o' & Hin & Hid & Hf).
      exists o'. split; [by right|]. split; [done|].
      rewrite filter_cons_False; [done|].
      rewrite (id_is_carried o i j Hoi), bool_decide_eq_true. congruence.
Qed.

(** C8. Starting from the empty scene, a sequence of [addObject] calls
    whose arguments carry pairwise distinct ids leaves exactly the added
    objects, in the order of the calls, and for each of the ids exactly
    one object of the set has it. *)
Theorem add_unique_in_order (objs : list object) (ids : list string) :
  Forall2 (λ o i, o !! "id" = Some (VStr i)) objs ids →
  NoDup ids →
  objects (run (OAdd <$> objs) init) = objs ∧
  ∀ i, i ∈ ids →
    ∃ o, o !! "id" = Some (VStr i) ∧
         filter (λ o, id_is i o = true) (objects (run (OAdd <$> objs) init)) = [o].
Proof.
  intros Hids Hnd.
  assert (objects (run (OAdd <$> objs) init) = objs) as E
    by (by rewrite run_adds_objects).
  split; [exact E|].
  intros i Hi. rewrite E.
  destruct (filter_id_one objs ids i Hids Hnd Hi) as (o & _ & Hid & Hf).
  by exists o.
Qed.

Lemma add_unique_in_order_witness :
  objects (run (OAdd <$> [Scenario.sofa; Scenario.rug]) init)
    = [Scenario.sofa; Scenario.rug] ∧
  ∃ o, o !! "id" = Some (VStr "b") ∧
       filter (λ o, id_is "b" o = true)
         (objects (run (OAdd <$> [Scenario.sofa; Scenario.rug]) init)) = [o].
Proof.
  destruct (add_unique_in_order [Scenario.sofa; Scenario.rug] ["a"; "b"])
    as [Hobjs Hone].
  - repeat constructor.
  - apply (bool_decide_unpack _). vm_compute. exact I.
  - split; [exact Hobjs|]. apply Hone. apply (bool_decide_unpack _). vm_compute. exact I.
Defined.

(** ** The selection *)

Lemma selected_present (i : string) (objs : list object) :
  existsb (id_is i) objs = true ↔ ∃ o, o ∈ objs ∧ id_is i o = true.
Proof.
  rewrite existsb_exists. split; intros (o & Hin & Hid); exists o.
  - by rewrite list_elem_of_In.
  - by rewrite <- list_elem_of_In.
Qed.

Lemma id_is_spread (i : string) (o patch : object) :
  patch !! "id" = None → id_is i (spread o patch) = id_is i o.
Proof. intros H. unfold id_is. by rewrite (spread_kept o patch "id" H). Qed.

Lemma id_is_functional (i j : string) (o : object) :
  id_is i o = true → id_is j o = true → i = j.
Proof.
  unfold id_is. destruct (o !! "id") as [[]|]; try discriminate.
  rewrite !bool_decide_eq_true. congruence.
Qed.

Lemma undo_selection_ok (s : store) : selection_ok s = true → selection_ok (undo s) = true.
Proof. intros H. unfold undo. by destruct (last (undoStack s)). Qed.

Lemma redo_selection_ok (s : store) : selection_ok s = true → selection_ok (redo s) = true.
Proof. intros H. unfold redo. by destruct (last (redoStack s)). Qed.

Lemma step_selection_ok (o : op) (s : store) :
  selection_ok s = true → op_guard s o = true → selection_ok (step o s) = true.
Proof.
  intros Hok Hg. destruct o as [obj|id patch|id|[i|]| |]; simpl in Hg.
  - unfold selection_ok in *. simpl.
    destruct (selectedId s) as [i|]; [|done].
    rewrite existsb_app, Hok. done.
  - unfold selection_ok in *. simpl.
    destruct (selectedId s) as [i|]; [|done].
    apply bool_decide_eq_true in Hg.
    apply selected_present in Hok as (o & Hin & Hid).
    apply selected_present.
    exists (if id_is id o then spread o patch else o). split.
    + by apply (list_elem_of_fmap_2 (λ o, if id_is id o then spread o patch else o)).
    + destruct (id_is id o); [by rewrite id_is_spread | done].
  - unfold selection_ok in *. simpl.
    case_decide as Hsel; [done|].
    destruct (selectedId s) as [i|]; [|done].
    apply selected_present in Hok as (o & Hin & Hid).
    apply selected_present. exists o. split; [|done].
    apply list_elem_of_filter. split; [|done].
    destruct (id_is id o) eqn:Hid'; [|done].
    exfalso. apply Hsel. f_equal. by eapply id_is_functional.
  - exact Hg.
  - done.
  - by apply undo_selection_ok.
  - by apply redo_selection_ok.
Qed.

Lemma run_selection_ok (ops : list op) (s : store) :
  selection_ok s = true → guarded ops s = true → selection_ok (run ops s) = true.
Proof.
  revert s. induction ops as [|o ops IH]; intros s Hok Hg; [done|].
  simpl in Hg. apply andb_true_iff in Hg as [Hg Hrest].
  change (run (o :: ops) s) with (run ops (step o s)).
  apply IH; [by apply step_selection_ok | done].
Qed.

(** C2, as stated, fails: [select] stores the id it is given without
    looking at the object set, so one call from the initial empty scene
    reaches a state whose [selectedId] names no object. *)
Lemma select_unknown_id :
  selectedId (run [OSelect (Some "ghost")] init) = Some "ghost" ∧
  objects (run [OSelect (Some "ghost")] init) = [] ∧
  selection_ok (run [OSelect (Some "ghost")] init) = false.
Proof. repeat split. Qed.

(** A patch that names [id] also takes the selected object away from
    the selection. *)
Example patch_renames_selected :
  selection_ok
    (run [OAdd Scenario.sofa; OSelect (Some "a"); OUpdate "a" Scenario.rename_id] init)
  = false.
Proof. vm_compute. reflexivity. Qed.

(** C2 (amended). In every state reached from the initial empty scene by
    calls in which [select] is given [null] or the id of an object of the
    set and no [updateObject] patch names [id], [selectedId] is [null] or
    the id of an object of the set.  And in every state, [removeObject]
    of the selected id leaves [selectedId] equal to [null]. *)
Theorem selection_invariant (ops : list op) :
  (guarded ops init = true → selection_ok (run ops init) = true) ∧
  (∀ s i, selectedId s = Some i → selectedId (removeObject i s) = None).
Proof.
  split.
  - by apply run_selection_ok.
  - intros s i Hsel. simpl. by case_decide.
Qed.

Lemma selection_invariant_witness :
  selection_ok
    (run [OAdd Scenario.sofa; OSelect (Some "a"); OUpdate "a" Scenario.red;
          OAdd Scenario.rug; ORemove "b"; OUndo; OSelect (Some "a"); ORedo] init)
  = true ∧
  selectedId (removeObject "a" (select (Some "a") Scenario.one_sofa)) = None.
Proof.
  destruct (selection_invariant
    [OAdd Scenario.sofa; OSelect (Some "a"); OUpdate "a" Scenario.red;
     OAdd Scenario.rug; ORemove "b"; OUndo; OSelect (Some "a"); ORedo]) as [Hinv Hrem].
  split.
  - apply Hinv. vm_compute. reflexivity.
  - apply Hrem. reflexivity.
Defined.

(** * Further properties of the store *)

Import Measure History.

(** ** Induction on values *)

Lemma vsize_elem (l : list value) (i : nat) (v : value) :
  l !! i = Some v → vsize v < vsize (VArr l).
Proof.
  simpl. revert i. induction l as [|x l IH]; intros [|i] H; simplify_eq/=.
  - lia.
  - specialize (IH i H). lia.
Qed.

Lemma vsize_field (m : object) (k : string) (v : value) :
  m !! k = Some v → vsize v < vsize (VObj m).
Proof.
  intros H. simpl.
  rewrite (map_fold_delete_L _ _ k v m); [lia| |done].
  intros. lia.
Qed.

Lemma value_nested_ind (P : value → Prop) :
  P VUndefined → P VNull → (∀ b, P (VBool b)) → (∀ n, P (VNum n)) →
  (∀ s, P (VStr s)) →
  (∀ l, (∀ i v, l !! i = Some v → P v) → P (VArr l)) →
  (∀ m, (∀ k v, m !! k = Some v → P v) → P (VObj m)) →
  ∀ v, P v.
Proof.
  intros Hu Hn Hb Hnum Hs Ha Ho v.
  remember (vsize v) as n eqn:En. revert v En.
  induction (lt_wf n) as [n _ IH]. intros v ->.
  destruct v as [| |b|x|s|l|m]; auto.
  - apply Ha. intros i v Hi. eapply IH; [|reflexivity]. by eapply vsize_elem.
  - apply Ho. intros k v Hk. eapply IH; [|reflexivity]. by eapply vsize_field.
Qed.

(** ** Reading a snapshot and writing it again *)

Lemma stringify_number_written (n : float) :
  stringify (parse (stringify_number n)) = Some (stringify_number n).
Proof.
  unfold stringify_number.
  destruct (is_nan n || is_infinity n) eqn:E1; [done|].
  destruct (is_zero n) eqn:E2; simpl.
  - done.
  - unfold stringify_number. by rewrite E1, E2.
Qed.

Lemma stringify_parse (v : value) (j : json) :
  stringify v = Some j → stringify (parse j) = Some j.
Proof.
  revert j.
  induction v as [| |b|n|s|l IH|m IH] using value_nested_ind;
    intros j H; simplify_eq/=; try done.
  - apply stringify_number_written.
  - do 2 f_equal. rewrite <- !list_fmap_compose. apply list_eq. intros i.
    rewrite !list_lookup_fmap.
    destruct (l !! i) as [v|] eqn:Hi; [|done]. simpl. f_equal.
    destruct (stringify v) as [j|] eqn:Hv; simpl; [|done].
    by rewrite (IH i v Hi j Hv).
  - do 2 f_equal. apply map_eq. intros k.
    rewrite lookup_omap, lookup_fmap, lookup_omap.
    destruct (m !! k) as [v|] eqn:Hk; [|done]. simpl.
    destruct (stringify v) as [j|] eqn:Hv; simpl; [|done].
    by apply (IH k v Hk).
Qed.

Lemma stringify_objects_written (objs : list object) :
  written (stringify_objects objs).
Proof.
  unfold written, parse_objects, stringify_objects.
  rewrite <- !list_fmap_compose. apply list_fmap_ext. intros _ o _. simpl.
  pose proof (stringify_parse (VObj o) _ eq_refl) as H.
  simpl in H. injection H as H. exact H.
Qed.

Lemma written_representable (t : snapshot) :
  written t → representable (parse_objects t).
Proof. intros H. unfold representable, roundtrip. by rewrite H. Qed.

(** ** The two stacks *)

Lemma undo_empty (s : store) : undoStack s = [] → undo s = s.
Proof. intros E. unfold undo. by rewrite E. Qed.

Lemma redo_empty (s : store) : redoStack s = [] → redo s = s.
Proof. intros E. unfold redo. by rewrite E. Qed.

Lemma nonempty_snoc {A} (l : list A) : l ≠ [] → ∃ st x, l = st ++ [x].
Proof.
  intros Hne. destruct (last l) as [x|] eqn:El.
  - apply last_Some in El as [st ->]. by exists st, x.
  - by apply last_None in El.
Qed.

Lemma history_ok_mutate (m : mutation) (s : store) :
  history_ok s → history_ok (mutate m s).
Proof.
  intros [HU _]. split.
  - rewrite mutate_undoStack. apply Forall_app. split; [done|].
    constructor; [apply stringify_objects_written | constructor].
  - by destruct m.
Qed.

Lemma history_ok_undo (s : store) : history_ok s → history_ok (undo s).
Proof.
  intros [HU HR]. destruct (decide (undoStack s = [])) as [E|Hne].
  - by rewrite (undo_empty s E).
  - destruct (nonempty_snoc _ Hne) as (st & x & E).
    rewrite (undo_nonempty s st x E). rewrite E in HU.
    apply Forall_app in HU as [HU _]. split; simpl; [done|].
    apply Forall_app. split; [done|].
    constructor; [apply stringify_objects_written | constructor].
Qed.

Lemma history_ok_redo (s : store) : history_ok s → history_ok (redo s).
Proof.
  intros [HU HR]. destruct (decide (redoStack s = [])) as [E|Hne].
  - by rewrite (redo_empty s E).
  - destruct (nonempty_snoc _ Hne) as (st & x & E).
    rewrite (redo_nonempty s st x E). rewrite E in HR.
    apply Forall_app in HR as [HR _]. split; simpl; [|done].
    apply Forall_app. split; [done|].
    constructor; [apply stringify_objects_written | constructor].
Qed.

Lemma history_ok_step (o : op) (s : store) : history_ok s → history_ok (step o s).
Proof.
  intros H. destruct o as [obj|i patch|i|sel| |].
  - exact (history_ok_mutate (MAdd obj) s H).
  - exact (history_ok_mutate (MUpdate i patch) s H).
  - exact (history_ok_mutate (MRemove i) s H).
  - exact H.
  - by apply history_ok_undo.
  - by apply history_ok_redo.
Qed.

Lemma history_ok_run (ops : list op) (s : store) :
  history_ok s → history_ok (run ops s).
Proof.
  revert s. induction ops as [|o ops IH]; intros s H; [done|].
  change (run (o :: ops) s) with (run ops (step o s)).
  by apply IH, history_ok_step.
Qed.

Lemma history_ok_init : history_ok init.
Proof. split; constructor. Qed.

(** X2. [undo] and [redo] keep the number of snapshots the two stacks
    hold together.  An [undo] that acts drops the snapshot on top of
    [undoStack], the one it restores, and pushes on [redoStack] a snapshot
    of the object set it replaces; a [redo] that acts does the same the
    other way round; on an empty stack both leave the stacks alone. *)
Theorem undo_redo_stack_sizes (s : store) :
  length (undoStack (undo s)) + length (redoStack (undo s))
    = length (undoStack s) + length (redoStack s) ∧
  length (undoStack (redo s)) + length (redoStack (redo s))
    = length (undoStack s) + length (redoStack s) ∧
  (∀ st x, undoStack s = st ++ [x] →
     undoStack (undo s) = st ∧
     redoStack (undo s) = redoStack s ++ [stringify_objects (objects s)] ∧
     objects (undo s) = parse_objects x) ∧
  (∀ st x, redoStack s = st ++ [x] →
     redoStack (redo s) = st ∧
     undoStack (redo s) = undoStack s ++ [stringify_objects (objects s)] ∧
     objects (redo s) = parse_objects x).
Proof.
  assert (∀ st x, undoStack s = st ++ [x] →
     undoStack (undo s) = st ∧
     redoStack (undo s) = redoStack s ++ [stringify_objects (objects s)] ∧
     objects (undo s) = parse_objects x) as HU.
  { intros st x E. by rewrite (undo_nonempty s st x E). }
  assert (∀ st x, redoStack s = st ++ [x] →
     redoStack (redo s) = st ∧
     undoStack (redo s) = undoStack s ++ [stringify_objects (objects s)] ∧
     objects (redo s) = parse_objects x) as HR.
  { intros st x E. by rewrite (redo_nonempty s st x E). }
  split; [|split; [|split; [exact HU | exact HR]]].
  - destruct (decide (undoStack s = [])) as [E|Hne].
    + by rewrite (undo_empty s E).
    + destruct (nonempty_snoc _ Hne) as (st & x & E).
      destruct (HU st x E) as (-> & -> & _).
      rewrite E, !length_app. simpl. lia.
  - destruct (decide (redoStack s = [])) as [E|Hne].
    + by rewrite (redo_empty s E).
    + destruct (nonempty_snoc _ Hne) as (st & x & E).
      destruct (HR st x E) as (-> & -> & _).
      rewrite E, !length_app. simpl. lia.
Qed.

Lemma undo_redo_stack_sizes_witness :
  undoStack (undo (addObject Sample.tug (addObject Sample.tag init)))
    = [stringify_objects [Sample.tag]] ∧
  redoStack (undo (addObject Sample.tug (addObject Sample.tag init)))
    = [stringify_objects [Sample.tag; Sample.tug]].
Proof.
  destruct (undo_redo_stack_sizes (addObject Sample.tug (addObject Sample.tag init)))
    as (_ & _ & H & _).
  destruct (H [stringify_objects [Sample.tag]] (stringify_objects [Sample.tag; Sample.tug]))
    as (H1 & H2 & _); [reflexivity|].
  split; [exact H1 | exact H2].
Defined.

(** X1. In every state reached by calls of the store from the initial
    state, the object set that an [undo] or a [redo] restores from a
    snapshot is JSON-representable, whatever the objects held when the
    snapshot was taken: the JSON image of an object set is its own JSON
    image. *)
Theorem restored_set_representable (ops : list op) (objs : list object) :
  representable (roundtrip objs) ∧
  (undoStack (run ops init) ≠ [] →
     representable (objects (undo (run ops init)))) ∧
  (redoStack (run ops init) ≠ [] →
     representable (objects (redo (run ops init)))).
Proof.
  pose proof (history_ok_run ops init history_ok_init) as [HU HR].
  split; [apply written_representable, stringify_objects_written|].
  split; intros Hne; destruct (nonempty_snoc _ Hne) as (st & x & E).
  - rewrite (undo_nonempty _ st x E). simpl. apply written_representable.
    rewrite E in HU. apply Forall_app in HU as [_ HU].
    by apply Forall_cons in HU as [? _].
  - rewrite (redo_nonempty _ st x E). simpl. apply written_representable.
    rewrite E in HR. apply Forall_app in HR as [_ HR].
    by apply Forall_cons in HR as [? _].
Qed.

Lemma restored_set_representable_witness :
  ¬ representable (objects (run [OAdd Sample.adrift] init)) ∧
  representable (objects (undo (run [OAdd Sample.adrift] init))).
Proof.
  split.
  - intros H.
    apply (f_equal (λ l : list object, (l !! 0) ≫= (.!! "position"))) in H.
    vm_compute in H. discriminate.
  - destruct (restored_set_representable [OAdd Sample.adrift] []) as (_ & H & _).
    apply H. vm_compute. discriminate.
Defined.

(** X3. Every state the six operations reach from the initial state holds
    in its two stacks only snapshots that read back and write again as
    the same text. *)
Theorem reachable_history_ok (ops : list op) : history_ok (run ops init).
Proof. apply history_ok_run, history_ok_init. Qed.

Lemma undo_then_redo (s : store) :
  history_ok s → undoStack s ≠ [] → representable (objects s) →
  redo (undo s) = select None s.
Proof.
  intros [HU _] Hne Hrep. destruct (nonempty_snoc _ Hne) as (st & x & E).
  rewrite (undo_nonempty s st x E).
  erewrite redo_nonempty by reflexivity. simpl.
  rewrite E in HU. apply Forall_app in HU as [_ Hx].
  apply Forall_cons in Hx as [Hx _].
  unfold written in Hx. rewrite Hx, <- E.
  unfold select. f_equal. exact Hrep.
Qed.

Lemma redo_then_undo (s : store) :
  history_ok s → redoStack s ≠ [] → representable (objects s) →
  undo (redo s) = select None s.
Proof.
  intros [_ HR] Hne Hrep. destruct (nonempty_snoc _ Hne) as (st & x & E).
  rewrite (redo_nonempty s st x E).
  erewrite undo_nonempty by reflexivity. simpl.
  rewrite E in HR. apply Forall_app in HR as [_ Hx].
  apply Forall_cons in Hx as [Hx _].
  unfold written in Hx. rewrite Hx, <- E.
  unfold select. f_equal. exact Hrep.
Qed.

(** X4. In a state reached by calls of the store whose object set is
    JSON-representable, [undo] followed by [redo] gives back the whole
    state, both stacks included, except that the selection is cleared;
    so does [redo] followed by [undo]. *)
Theorem undo_redo_restore_state (ops : list op) :
  representable (objects (run ops init)) →
  (undoStack (run ops init) ≠ [] →
     redo (undo (run ops init)) = select None (run ops init)) ∧
  (redoStack (run ops init) ≠ [] →
     undo (redo (run ops init)) = select None (run ops init)).
Proof.
  intros Hrep. pose proof (history_ok_run ops init history_ok_init) as Hok.
  split; intros Hne.
  - by apply undo_then_redo.
  - by apply redo_then_undo.
Qed.

(** ** Several undos in a row *)

Lemma undo_times_S (k : nat) (s : store) :
  undo_times (S k) s = undo_times k (undo s).
Proof. unfold undo_times. apply Nat.iter_succ_r. Qed.

Lemma redo_times_S (k : nat) (s : store) :
  redo_times (S k) s = redo_times k (redo s).
Proof. unfold redo_times. apply Nat.iter_succ_r. Qed.

Lemma undo_times_empty (k : nat) (s : store) :
  undoStack s = [] → undo_times k s = s.
Proof.
  intros E. induction k as [|k IH]; [done|].
  by rewrite undo_times_S, (undo_empty s E).
Qed.

Lemma undo_times_add (j k : nat) (s : store) :
  undo_times (j + k) s = undo_times j (undo_times k s).
Proof. unfold undo_times. apply Nat.iter_add. Qed.

(** Undoing through the snapshots above [t] and [t] itself. *)
Lemma undo_times_down_to (rest : list snapshot) :
  ∀ (s : store) (st : list snapshot) (t : snapshot),
    undoStack s = st ++ t :: rest →
    objects (undo_times (S (length rest)) s) = parse_objects t ∧
    selectedId (undo_times (S (length rest)) s) = None ∧
    undoStack (undo_times (S (length rest)) s) = st ∧
    length (redoStack (undo_times (S (length rest)) s))
      = S (length rest) + length (redoStack s).
Proof.
  induction rest as [|x rest IH] using rev_ind; intros s st t E.
  - unfold undo_times. simpl.
    rewrite (undo_nonempty s st t E). simpl.
    repeat split. rewrite length_app. simpl. lia.
  - rewrite length_app.
    replace (length rest + length [x]) with (S (length rest)) by (simpl; lia).
    rewrite (undo_times_S (S (length rest))).
    assert (undoStack s = (st ++ t :: rest) ++ [x]) as E'
      by (rewrite E, <- app_assoc; done).
    destruct (IH (undo s) st t) as (H1 & H2 & H3 & H4).
    { by rewrite (undo_nonempty s _ x E'). }
    repeat split; try done.
    rewrite H4, (undo_nonempty s _ x E'). simpl. rewrite length_app. simpl. lia.
Qed.

Lemma edit_app (ms1 ms2 : list mutation) (s : store) :
  edit (ms1 ++ ms2) s = edit ms2 (edit ms1 s).
Proof. apply foldl_app. Qed.

Lemma edit_undoStack (ms : list mutation) (s : store) :
  ∃ pushed, undoStack (edit ms s) = undoStack s ++ pushed ∧
            length pushed = length ms.
Proof.
  revert s. induction ms as [|m ms IH]; intros s.
  - exists []. by rewrite app_nil_r.
  - change (edit (m :: ms) s) with (edit ms (mutate m s)).
    destruct (IH (mutate m s)) as (pushed & E & Hlen).
    exists (stringify_objects (objects (mutate m s)) :: pushed). split.
    + rewrite E, mutate_undoStack, <- app_assoc. done.
    + simpl. by rewrite Hlen.
Qed.

(** X5. Undo lags by one edit at every depth: after a sequence of edits,
    [k] undos in a row bring back the object set (as JSON wrote it) that
    the [k]-th most recent edit produced, not the one that edit started
    from, and leave the undo stack as it was before that edit. *)
Theorem undo_times_lag (ms1 ms2 : list mutation) (m : mutation) (s : store) :
  objects (undo_times (S (length ms2)) (edit (ms1 ++ m :: ms2) s))
    = roundtrip (objects (edit (ms1 ++ [m]) s)) ∧
  undoStack (undo_times (S (length ms2)) (edit (ms1 ++ m :: ms2) s))
    = undoStack (edit ms1 s) ∧
  selectedId (undo_times (S (length ms2)) (edit (ms1 ++ m :: ms2) s)) = None.
Proof.
  rewrite !edit_app.
  change (edit (m :: ms2) (edit ms1 s)) with (edit ms2 (mutate m (edit ms1 s))).
  change (edit [m] (edit ms1 s)) with (mutate m (edit ms1 s)).
  set (s1 := edit ms1 s).
  destruct (edit_undoStack ms2 (mutate m s1)) as (pushed & E & Hlen).
  rewrite mutate_undoStack, <- app_assoc in E. simpl in E.
  rewrite <- Hlen.
  destruct (undo_times_down_to pushed _ _ _ E) as (H1 & H2 & H3 & _).
  by rewrite H1, H2, H3.
Qed.

(** X6. Undoing every edit does not bring back the empty scene the
    store starts with.  From the initial state, after a first
    [addObject a] and any later edits, undoing as many times as there
    were edits, or more, leaves the JSON image of [a] as the only object,
    with an empty undo stack.  (Fewer undos can show an empty set, when a
    later edit had emptied it.) *)
Theorem undo_all_leaves_first_object (a : object) (ms : list mutation) (k : nat) :
  length ms < k →
  objects (undo_times k (edit (MAdd a :: ms) init)) = [roundtrip_object a] ∧
  objects (undo_times k (edit (MAdd a :: ms) init)) ≠ [] ∧
  undoStack (undo_times k (edit (MAdd a :: ms) init)) = [].
Proof.
  intros Hk.
  replace k with ((k - S (length ms)) + S (length ms)) by lia.
  rewrite undo_times_add.
  change (edit (MAdd a :: ms) init) with (edit ms (mutate (MAdd a) init)).
  destruct (edit_undoStack ms (mutate (MAdd a) init)) as (pushed & E & Hlen).
  rewrite mutate_undoStack in E. simpl in E.
  rewrite <- Hlen.
  destruct (undo_times_down_to pushed _ [] _ E) as (H1 & _ & H3 & _).
  rewrite (undo_times_empty _ _ H3), H1, H3.
  by repeat split.
Qed.

Lemma undo_all_leaves_first_object_witness :
  objects (undo_times 3 (edit [MAdd Sample.tag; MRemove "t"; MAdd Sample.tug] init))
    = [roundtrip_object Sample.tag] ∧
  objects (undo_times 2 (edit [MAdd Sample.tag; MRemove "t"; MAdd Sample.tug] init))
    = [].
Proof.
  split.
  - apply (undo_all_leaves_first_object Sample.tag [MRemove "t"; MAdd Sample.tug] 3).
    simpl. lia.
  - vm_compute. reflexivity.
Defined.

Lemma undo_times_facts (n : nat) :
  ∀ s, history_ok s → representable (objects s) → n ≤ length (undoStack s) →
    history_ok (undo_times n s) ∧
    representable (objects (undo_times n s)) ∧
    length (undoStack (undo_times n s)) = length (undoStack s) - n ∧
    (0 < n → selectedId (undo_times n s) = None).
Proof.
  induction n as [|n IH]; intros s Hok Hrep Hn.
  - unfold undo_times. simpl.
    split; [done|]. split; [done|]. split; [lia | intros; lia].
  - rewrite undo_times_S.
    assert (undoStack s ≠ []) as Hne by (intros E; rewrite E in Hn; simpl in Hn; lia).
    destruct (nonempty_snoc _ Hne) as (st & x & E).
    assert (written x) as Hx.
    { destruct Hok as [HU _]. rewrite E in HU.
      apply Forall_app in HU as [_ HU]. by apply Forall_cons in HU as [? _]. }
    destruct (IH (undo s)) as (H1 & H2 & H3 & H4).
    + by apply history_ok_undo.
    + rewrite (undo_nonempty s st x E). simpl. by apply written_representable.
    + rewrite (undo_nonempty s st x E). simpl.
      rewrite E, length_app in Hn. simpl in Hn. lia.
    + split; [done|]. split; [done|]. split.
      * rewrite H3, (undo_nonempty s st x E), E, length_app. simpl. lia.
      * intros _. destruct n as [|n].
        -- simpl. by rewrite (undo_nonempty s st x E).
        -- apply H4. lia.
Qed.

Lemma select_none_id (s : store) : selectedId s = None → select None s = s.
Proof. intros H. destruct s. simpl in *. by subst. Qed.

(** X7. Undo and redo are inverse at every depth: from a state reached by
    calls of the store whose object set is JSON-representable, [n] undos
    followed by [n] redos give back the whole state, with the selection
    cleared, for every [n] from 1 up to the height of the undo stack. *)
Theorem undo_redo_times_restore (ops : list op) (n : nat) :
  representable (objects (run ops init)) →
  0 < n → n ≤ length (undoStack (run ops init)) →
  redo_times n (undo_times n (run ops init)) = select None (run ops init).
Proof.
  intros Hrep Hpos Hn.
  pose proof (history_ok_run ops init history_ok_init) as Hok.
  revert Hrep Hn Hok. generalize (run ops init). clear ops.
  induction n as [|n IH]; intros s Hrep Hn Hok; [lia|].
  unfold undo_times. rewrite Nat.iter_succ. fold (undo_times n s).
  rewrite redo_times_S.
  destruct (undo_times_facts n s Hok Hrep) as (H1 & H2 & H3 & H4); [lia|].
  rewrite undo_then_redo; [|done| |done].
  - destruct n as [|n]; [done|].
    rewrite select_none_id by (apply H4; lia).
    apply IH; [lia|done|lia|done].
  - intros E. rewrite E in H3. simpl in H3. lia.
Qed.

Lemma undo_redo_restore_state_witness :
  redo (undo (run [OAdd Sample.tag; OSelect (Some "t")] init))
  = select None (run [OAdd Sample.tag; OSelect (Some "t")] init).
Proof.
  destruct (undo_redo_restore_state [OAdd Sample.tag; OSelect (Some "t")]) as [H _].
  - vm_compute. reflexivity.
  - apply H. vm_compute. discriminate.
Defined.

Lemma undo_redo_times_restore_witness :
  redo_times 2 (undo_times 2 (run [OAdd Sample.tag; OAdd Sample.tug] init))
  = select None (run [OAdd Sample.tag; OAdd Sample.tug] init).
Proof.
  apply (undo_redo_times_restore [OAdd Sample.tag; OAdd Sample.tug] 2).
  - vm_compute. reflexivity.
  - lia.
  - vm_compute. lia.
Defined.

(** ** Objects that share an id *)

Lemma id_is_true (i : string) (o : object) :
  id_is i o = true ↔ o !! "id" = Some (VStr i).
Proof.
  unfold id_is. destruct (o !! "id") as [[]|]; try (split; [discriminate|congruence]).
  rewrite bool_decide_eq_true. split; congruence.
Qed.

Lemma count_id_app (i : string) (l1 l2 : list object) :
  count_id i (l1 ++ l2) = count_id i l1 + count_id i l2.
Proof. unfold count_id. by rewrite filter_app, length_app. Qed.

Lemma count_id_absent (i : string) (objs : list object) :
  count_id i objs = 0 ↔ absent i objs.
Proof.
  unfold count_id, absent. induction objs as [|o objs IH].
  - split; [constructor | done].
  - destruct (id_is i o) eqn:Ho.
    + rewrite filter_cons_True by done. split; [discriminate|].
      intros H. apply Forall_cons in H as [H _]. congruence.
    + rewrite filter_cons_False by congruence. rewrite IH.
      split; [by constructor | by intros [_ ?]%Forall_cons].
Qed.

(** X8. [removeObject id] removes every object that carries the id, not
    only the first: afterwards no object of the set has it, the objects
    with another id are all still there in their order, and calling it a
    second time changes neither the object set nor the selection. *)
Theorem removeObject_removes_all (id : string) (s : store) :
  absent id (objects (removeObject id s)) ∧
  (∀ o, o ∈ objects (removeObject id s) ↔ o ∈ objects s ∧ id_is id o = false) ∧
  sublist (objects (removeObject id s)) (objects s) ∧
  objects (removeObject id (removeObject id s)) = objects (removeObject id s) ∧
  selectedId (removeObject id (removeObject id s)) = selectedId (removeObject id s).
Proof.
  assert (absent id (objects (removeObject id s))) as Habs.
  { simpl. apply Forall_forall. intros o Ho.
    by apply list_elem_of_filter in Ho as [? _]. }
  split; [exact Habs|]. split; [|split; [|split]].
  - intros o. simpl. by rewrite list_elem_of_filter, (and_comm (o ∈ objects s)).
  - simpl. apply sublist_filter.
  - change (objects (removeObject id (removeObject id s)))
      with (filter (λ o, id_is id o = false) (objects (removeObject id s))).
    by apply absent_remove.
  - simpl. repeat case_decide; congruence.
Qed.

(** X9. The store never merges objects that share an id.  [addObject]
    adds one more object to those that already carry its id, a patch that
    does not name [id] keeps their number, and [removeObject] brings it to
    zero. *)
Theorem shared_ids_counted (i : string) (s : store) (obj patch : object) (j : string) :
  count_id i (objects (addObject obj s))
    = count_id i (objects s) + (if id_is i obj then 1 else 0) ∧
  length (objects (addObject obj s)) = S (length (objects s)) ∧
  (patch !! "id" = None →
     count_id i (objects (updateObject j patch s)) = count_id i (objects s)) ∧
  count_id i (objects (removeObject i s)) = 0.
Proof.
  split; [|split; [|split]].
  - simpl. rewrite count_id_app. f_equal. unfold count_id.
    destruct (id_is i obj) eqn:Ho.
    + by rewrite filter_cons_True.
    + by rewrite filter_cons_False by congruence.
  - simpl. rewrite length_app. simpl. lia.
  - intros Hp. simpl. unfold count_id.
    induction (objects s) as [|o objs IH]; [done|].
    rewrite fmap_cons.
    assert (id_is i (if id_is j o then spread o patch else o) = id_is i o) as E
      by (destruct (id_is j o); [by apply id_is_spread | done]).
    destruct (id_is i o) eqn:Ho.
    + rewrite !filter_cons_True by congruence. simpl. by rewrite IH.
    + rewrite !filter_cons_False by congruence. exact IH.
  - apply count_id_absent. simpl. apply Forall_forall. intros o Ho.
    by apply list_elem_of_filter in Ho as [? _].
Qed.

Lemma shared_ids_counted_witness :
  count_id "t" (objects (updateObject "t" Scenario.red
                           (addObject Sample.tag (addObject Sample.tag init))))
  = count_id "t" (objects (addObject Sample.tag (addObject Sample.tag init))).
Proof.
  destruct (shared_ids_counted "t" (addObject Sample.tag (addObject Sample.tag init))
              Sample.tag Scenario.red "t") as (_ & _ & H & _).
  apply H. vm_compute. reflexivity.
Defined.

(** ** Patches in a row *)

(** X10. Two patches of the same id compose by merging: when the first
    patch does not name [id], [updateObject id p1] followed by
    [updateObject id p2] leaves the object set that a single
    [updateObject] with the merged patch [{...p1, ...p2}] leaves.  In
    particular the same patch applied twice is the patch applied once. *)
Theorem updateObject_compose (id : string) (p1 p2 : object) (s : store) :
  p1 !! "id" = None →
  objects (updateObject id p2 (updateObject id p1 s))
    = objects (updateObject id (spread p1 p2) s) ∧
  objects (updateObject id p1 (updateObject id p1 s))
    = objects (updateObject id p1 s).
Proof.
  intros Hp1.
  assert (∀ p, objects (updateObject id p (updateObject id p1 s))
               = objects (updateObject id (spread p1 p) s)) as H.
  { intros p. simpl. rewrite <- list_fmap_compose. apply list_fmap_ext.
    intros _ o _. simpl. destruct (id_is id o) eqn:Ho.
    - rewrite id_is_spread, Ho by done. unfold spread. apply (assoc_L (∪)).
    - by rewrite Ho. }
  split; [apply H|].
  rewrite H. unfold spread. by rewrite (idemp_L (∪)).
Qed.

Lemma updateObject_compose_witness :
  objects (updateObject "a" Scenario.black (updateObject "a" Scenario.red Scenario.one_sofa))
  = objects (updateObject "a" (spread Scenario.red Scenario.black) Scenario.one_sofa).
Proof.
  destruct (updateObject_compose "a" Scenario.red Scenario.black Scenario.one_sofa)
    as [H _]; [vm_compute; reflexivity | exact H].
Defined.

(** ** The store without history *)

Lemma scene_step (o : Plain.op) (s : store) :
  Plain.scene (step (Plain.with_history o) s) = Plain.step o (Plain.scene s).
Proof. by destruct o. Qed.

Lemma undoStack_step (o : Plain.op) (s : store) :
  length (undoStack (step (Plain.with_history o) s))
  = length (undoStack s) + (match o with Plain.OSelect _ => 0 | _ => 1 end).
Proof. destruct o; simpl; rewrite ?length_app; simpl; lia. Qed.

(** X11. The history is invisible to the scene: for every sequence of
    [addObject], [select], [updateObject] and [removeObject] calls, the
    objects and the selection of the store with history are those the
    store without history holds after the same calls; the calls only add
    to the undo stack, one snapshot for each call other than [select]. *)
Theorem history_is_transparent (ops : list Plain.op) (s : store) :
  Plain.scene (run (Plain.with_history <$> ops) s) = Plain.run ops (Plain.scene s) ∧
  length (undoStack (run (Plain.with_history <$> ops) s))
    = length (undoStack s)
      + sum_list ((λ o, match o with Plain.OSelect _ => 0 | _ => 1 end) <$> ops).
Proof.
  revert s. induction ops as [|o ops IH]; intros s.
  - simpl. split; [done|lia].
  - rewrite fmap_cons.
    change (run (Plain.with_history o :: (Plain.with_history <$> ops)) s)
      with (run (Plain.with_history <$> ops) (step (Plain.with_history o) s)).
    change (Plain.run (o :: ops) (Plain.scene s))
      with (Plain.run ops (Plain.step o (Plain.scene s))).
    destruct (IH (step (Plain.with_history o) s)) as [H1 H2].
    rewrite H1, H2, scene_step, undoStack_step. split; [done|].
    rewrite (fmap_cons _ o ops). simpl. destruct o; lia.
Qed.

(** ** The id and the size of an object *)

Import Identity.

Lemma roundtrip_lookup (o : object) (k : string) :
  roundtrip_object o !! k = parse <$> (o !! k ≫= stringify).
Proof. unfold roundtrip_object. by rewrite lookup_fmap, lookup_omap. Qed.
















(** * The pages *)

Import UI.

(** ** Placed objects and JSON *)

Lemma roundtrip_field (o : object) (k : string) (v v' : value) :
  o !! k = Some v → parse <$> stringify v = Some v' →
  roundtrip_object o !! k = Some v'.
Proof. intros Hk Hv. rewrite roundtrip_lookup, Hk. exact Hv. Qed.

Lemma coordinate_image (v : value) :
  coordinate v →
  ∃ j, stringify v = Some j ∧ coordinate (parse j).
Proof.
  intros [->|[n ->]]; simpl.
  - exists JNull. split; [done|by left].
  - exists (stringify_number n). split; [done|].
    unfold stringify_number.
    destruct (is_nan n || is_infinity n); [by left|].
    destruct (is_zero n); right; eauto.
Qed.

Lemma library_plain (cat : nat) (category : string) (items : list preset)
    (it : preset) (w h d : float) :
  library !! cat = Some (category, items) → it ∈ items →
  item_size it = (w, h, d) →
  plain_number w ∧ plain_number h ∧ plain_number d.
Proof.
  intros Hcat Hin Hsize.
  destruct cat as [|[|[|[|cat]]]]; simpl in Hcat; simplify_eq;
    repeat (apply elem_of_cons in Hin as [->|Hin]);
    try (by apply elem_of_nil in Hin);
    simpl in Hsize; simplify_eq; by vm_compute.
Qed.

Lemma placed_roundtrip (o : object) : placed o → placed (roundtrip_object o).
Proof.
  intros (Hid & Hsize & Hpos & Hname & Hcolor & Hrot & Hmeta).
  split; [|split; [|split; [|split; [|split; [|split]]]]].
  - destruct Hid as [r Hr]. exists r. by eapply roundtrip_field.
  - destruct Hsize as (cat & category & items & it & w & h & d & H1 & H2 & H3 & H4 & H5).
    exists cat, category, items, it, w, h, d.
    destruct (library_plain _ _ _ _ _ _ _ H1 H2 H3) as (Pw & Ph & Pd).
    repeat split; try done.
    + by eapply roundtrip_field.
    + eapply roundtrip_field; [done|]. simpl.
      unfold plain_number in *. by rewrite Pw, Ph, Pd.
  - destruct Hpos as (x & y & z & Hx & Hy & Hz & Hp).
    destruct (coordinate_image x Hx) as (jx & Ex & Cx).
    destruct (coordinate_image y Hy) as (jy & Ey & Cy).
    destruct (coordinate_image z Hz) as (jz & Ez & Cz).
    exists (parse jx), (parse jy), (parse jz). repeat split; try done.
    eapply roundtrip_field; [done|]. simpl. by rewrite Ex, Ey, Ez.
  - destruct Hname as [n Hn]. exists n. by eapply roundtrip_field.
  - destruct Hcolor as [c Hc]. exists c. by eapply roundtrip_field.
  - destruct Hrot as (a & Ha & Hr).
    destruct (coordinate_image a Ha) as (ja & Ea & Ca).
    exists (parse ja). split; [done|].
    eapply roundtrip_field; [done|]. by rewrite Ea.
  - eapply roundtrip_field; [done|]. simpl.
    by rewrite omap_empty, fmap_empty.
Qed.

Lemma placed_roundtrip_all (objs : list object) :
  Forall placed objs → Forall placed (parse_objects (stringify_objects objs)).
Proof.
  intros H. change (Forall placed (roundtrip objs)).
  rewrite roundtrip_map. apply Forall_fmap.
  eapply Forall_impl; [exact H|]. intros o. apply placed_roundtrip.
Qed.

Lemma handleAddFromLib_placed (cat item : nat) (category r : string)
    (items : list preset) (it : preset) :
  library !! cat = Some (category, items) → items !! item = Some it →
  placed (handleAddFromLib (id "f" r) it category).
Proof.
  intros Hcat Hitem.
  assert (it ∈ items) as Hin by (by eapply list_elem_of_lookup_2).
  unfold handleAddFromLib. destruct (item_size it) as [[w h] d] eqn:Hsize.
  split; [|split; [|split; [|split; [|split; [|split]]]]].
  - by exists r.
  - exists cat, category, items, it, w, h, d. by repeat split.
  - exists (VNum 0), (VNum (h / 2)), (VNum 0).
    repeat split; try (right; eauto).
  - by eexists.
  - by eexists.
  - exists (VNum 0). split; [right; eauto | done].
  - done.
Qed.


(** ** The patches of the inspector *)

Lemma inspector_patch_no_id (patch : object) :
  inspector_patch patch → patch !! "id" = None.
Proof. by destruct 1. Qed.

Lemma placed_patched (o patch : object) :
  placed o → inspector_patch patch → placed (spread o patch).
Proof.
  intros (Hid & Hsize & Hpos & Hname & Hcolor & Hrot & Hmeta) Hp.
  destruct Hp as [v|hex|a|x y z Hx Hy Hz].
  - split; [|split; [|split; [|split; [|split; [|split]]]]].
    + destruct Hid as [r Hr]. exists r. by rewrite spread_kept.
    + destruct Hsize as (cat & category & items & it & w & h & d & ? & ? & ? & ? & ?).
      exists cat, category, items, it, w, h, d.
      repeat split; try done; by rewrite spread_kept.
    + destruct Hpos as (x & y & z & ? & ? & ? & ?). exists x, y, z.
      repeat split; try done. by rewrite spread_kept.
    + exists v. by apply spread_patched.
    + destruct Hcolor as [c ?]. exists c. by rewrite spread_kept.
    + destruct Hrot as (a & ? & ?). exists a. split; [done|]. by rewrite spread_kept.
    + by rewrite spread_kept.
  - split; [|split; [|split; [|split; [|split; [|split]]]]].
    + destruct Hid as [r Hr]. exists r. by rewrite spread_kept.
    + destruct Hsize as (cat & category & items & it & w & h & d & ? & ? & ? & ? & ?).
      exists cat, category, items, it, w, h, d.
      repeat split; try done; by rewrite spread_kept.
    + destruct Hpos as (x & y & z & ? & ? & ? & ?). exists x, y, z.
      repeat split; try done. by rewrite spread_kept.
    + destruct Hname as [n ?]. exists n. by rewrite spread_kept.
    + exists hex. by apply spread_patched.
    + destruct Hrot as (a & ? & ?). exists a. split; [done|]. by rewrite spread_kept.
    + by rewrite spread_kept.
  - split; [|split; [|split; [|split; [|split; [|split]]]]].
    + destruct Hid as [r Hr]. exists r. by rewrite spread_kept.
    + destruct Hsize as (cat & category & items & it & w & h & d & ? & ? & ? & ? & ?).
      exists cat, category, items, it, w, h, d.
      repeat split; try done; by rewrite spread_kept.
    + destruct Hpos as (x & y & z & ? & ? & ? & ?). exists x, y, z.
      repeat split; try done. by rewrite spread_kept.
    + destruct Hname as [n ?]. exists n. by rewrite spread_kept.
    + destruct Hcolor as [c ?]. exists c. by rewrite spread_kept.
    + exists (VNum a). split; [right; eauto|]. by apply spread_patched.
    + by rewrite spread_kept.
  - split; [|split; [|split; [|split; [|split; [|split]]]]].
    + destruct Hid as [r Hr]. exists r. by rewrite spread_kept.
    + destruct Hsize as (cat & category & items & it & w & h & d & ? & ? & ? & ? & ?).
      exists cat, category, items, it, w, h, d.
      repeat split; try done; by rewrite spread_kept.
    + exists x, y, z. repeat split; try done. by apply spread_patched.
    + destruct Hname as [n ?]. exists n. by rewrite spread_kept.
    + destruct Hcolor as [c ?]. exists c. by rewrite spread_kept.
    + destruct Hrot as (a & ? & ?). exists a. split; [done|]. by rewrite spread_kept.
    + by rewrite spread_kept.
Qed.

(** ** What every event keeps *)

Lemma selection_ok_mutate (m : mutation) (s : store) :
  selection_ok s = true →
  (∀ i patch, m = MUpdate i patch → patch !! "id" = None) →
  selection_ok (mutate m s) = true.
Proof.
  intros Hok Hm. destruct m as [obj|i patch|i].
  - by apply (step_selection_ok (OAdd obj)).
  - apply (step_selection_ok (OUpdate i patch)); [done|].
    simpl. apply bool_decide_eq_true. by eapply Hm.
  - by apply (step_selection_ok (ORemove i)).
Qed.

Lemma app_ok_mutate (m : mutation) (s : store) :
  app_ok s →
  Forall placed (objects (mutate m s)) →
  (∀ i patch, m = MUpdate i patch → patch !! "id" = None) →
  app_ok (mutate m s).
Proof.
  intros (Hobjs & HU & HR & Hsel) Hnew Hm.
  split; [exact Hnew|]. split; [|split].
  - rewrite mutate_undoStack. apply Forall_app. split; [done|].
    constructor; [|constructor]. by apply placed_roundtrip_all.
  - by destruct m.
  - by apply selection_ok_mutate.
Qed.

Lemma app_ok_update (i : string) (patch : object) (s : store) :
  app_ok s → inspector_patch patch → app_ok (updateObject i patch s).
Proof.
  intros Hok Hp. apply (app_ok_mutate (MUpdate i patch)); [done| |].
  - simpl. apply Forall_fmap. destruct Hok as [Hobjs _].
    eapply Forall_impl; [exact Hobjs|]. intros o Ho. simpl.
    destruct (id_is i o); [by apply placed_patched | done].
  - intros ? ? [= <- <-]. by apply inspector_patch_no_id.
Qed.

Lemma app_ok_undo (s : store) : app_ok s → app_ok (undo s).
Proof.
  intros (Hobjs & HU & HR & Hsel).
  destruct (decide (undoStack s = [])) as [E|Hne].
  - by rewrite (undo_empty s E).
  - destruct (nonempty_snoc _ Hne) as (st & x & E).
    rewrite (undo_nonempty s st x E). rewrite E in HU.
    apply Forall_app in HU as [HU Hx]. apply Forall_cons in Hx as [Hx _].
    split; [exact Hx|]. split; [exact HU|]. split; [|done].
    simpl. apply Forall_app. split; [done|].
    constructor; [|constructor]. by apply placed_roundtrip_all.
Qed.

Lemma app_ok_redo (s : store) : app_ok s → app_ok (redo s).
Proof.
  intros (Hobjs & HU & HR & Hsel).
  destruct (decide (redoStack s = [])) as [E|Hne].
  - by rewrite (redo_empty s E).
  - destruct (nonempty_snoc _ Hne) as (st & x & E).
    rewrite (redo_nonempty s st x E). rewrite E in HR.
    apply Forall_app in HR as [HR Hx]. apply Forall_cons in Hx as [Hx _].
    split; [exact Hx|]. split; [|split; [exact HR|done]].
    simpl. apply Forall_app. split; [done|].
    constructor; [|constructor]. by apply placed_roundtrip_all.
Qed.

Lemma find_id_is (i : string) (objs : list object) (obj : object) :
  find (id_is i) objs = Some obj → obj ∈ objs ∧ obj !! "id" = Some (VStr i).
Proof.
  intros H. apply find_some in H as [Hin Hid].
  split; [by apply list_elem_of_In | by apply id_is_true].
Qed.

Lemma inspected_spec (s : store) (obj : object) :
  inspected s = Some obj →
  ∃ i, selectedId s = Some i ∧ truthy (selectedId s) = true ∧
       obj ∈ objects s ∧ obj !! "id" = Some (VStr i).
Proof.
  unfold inspected. destruct (selectedId s) as [i|]; [|done].
  destruct (truthy (Some i)) eqn:Ht; [|done].
  intros H. apply find_id_is in H as [? ?]. by exists i.
Qed.

Lemma placed_position (obj : object) :
  placed obj →
  ∃ x y z, coordinate x ∧ coordinate y ∧ coordinate z ∧
           prop obj "position" = VArr [x; y; z].
Proof.
  intros (_ & _ & (x & y & z & Hx & Hy & Hz & Hp) & _).
  exists x, y, z. unfold prop. by rewrite Hp.
Qed.

Lemma coordinate_num (n : float) : coordinate (VNum n).
Proof. right. by exists n. Qed.

Lemma handle_app_ok (e : event) (s : store) :
  app_ok s →
  match handle e s with
  | Done s' => app_ok s'
  | NotRendered => True
  | Throws | Untyped => False
  end.
Proof.
  intros Hok.
  assert (∀ k : string → object → outcome,
            (∀ i obj, selectedId s = Some i → truthy (selectedId s) = true →
                      placed obj → obj ∈ objects s →
                      match k i obj with
                      | Done s' => app_ok s' | NotRendered => True | _ => False
                      end) →
            match inspector s k with
            | Done s' => app_ok s' | NotRendered => True | _ => False
            end) as Hinsp.
  { intros k Hk. unfold inspector, draw_inspector.
    destruct (inspected s) as [obj|] eqn:Hobj; [|done].
    apply inspected_spec in Hobj as (i & Hsel & Ht & Hin & Hid).
    assert (placed obj) as Hpl
      by (destruct Hok as [Hobjs _]; by eapply Forall_forall in Hobjs).
    destruct (placed_position obj Hpl) as (x0 & y0 & z0 & _ & _ & _ & Hp).
    rewrite Hp. simpl. rewrite Hid. by apply Hk. }
  destruct e as [cat item r|i| | |v|hex|x|z|a| |]; simpl.
  - destruct (library !! cat) as [[category items]|] eqn:Hcat; [|done].
    destruct (items !! item) as [it|] eqn:Hitem; [|done].
    apply (app_ok_mutate (MAdd _)); [done| |done].
    simpl. apply Forall_app. split; [by destruct Hok|].
    constructor; [|constructor]. by eapply handleAddFromLib_placed.
  - destruct (objects s !! i) as [o|] eqn:Ho; [|done].
    destruct Hok as (Hobjs & HU & HR & Hsel).
    assert (o ∈ objects s) as Hin by (by eapply list_elem_of_lookup_2).
    pose proof (proj1 (Forall_forall _ _) Hobjs o Hin) as ((r & Hr) & _).
    rewrite Hr. repeat split; try done.
    unfold selection_ok. simpl. apply selected_present.
    exists o. split; [done|]. by apply id_is_true.
  - by apply app_ok_undo.
  - by apply app_ok_redo.
  - apply Hinsp. intros i obj _ _ _ _. apply app_ok_update; [done|constructor].
  - apply Hinsp. intros i obj Hsel Ht _ _.
    unfold handleColorChange. rewrite Ht, Hsel.
    apply app_ok_update; [done|constructor].
  - apply Hinsp. intros i obj _ _ Hpl _.
    destruct (placed_position obj Hpl) as (x0 & y0 & z0 & Hx & Hy & Hz & Hp).
    unfold patch_x. rewrite Hp. simpl.
    apply app_ok_update; [done|]. constructor; try done. apply coordinate_num.
  - apply Hinsp. intros i obj _ _ Hpl _.
    destruct (placed_position obj Hpl) as (x0 & y0 & z0 & Hx & Hy & Hz & Hp).
    unfold patch_z. rewrite Hp. simpl.
    apply app_ok_update; [done|]. constructor; try done. apply coordinate_num.
  - apply Hinsp. intros i obj _ _ _ _. apply app_ok_update; [done|constructor].
  - apply Hinsp. intros i obj _ _ _ _.
    apply (app_ok_mutate (MRemove i)); [done| |done].
    simpl. destruct Hok as [Hobjs _]. apply Forall_forall. intros o Ho.
    apply list_elem_of_filter in Ho as [_ Ho].
    by apply (proj1 (Forall_forall _ _) Hobjs).
  - apply Hinsp. intros i obj _ _ Hpl _.
    destruct (placed_position obj Hpl) as (x0 & y0 & z0 & Hx & Hy & Hz & Hp).
    unfold patch_reset. rewrite Hp. simpl.
    apply app_ok_update; [done|]. constructor; try done; apply coordinate_num.
Qed.

Lemma app_ok_init : app_ok init.
Proof. repeat split; constructor. Qed.

Lemma session_app_ok (es : list event) (s : store) :
  app_ok s →
  match session es s with
  | Done s' => app_ok s'
  | NotRendered => True
  | Throws | Untyped => False
  end.
Proof.
  revert s. induction es as [|e es IH]; intros s Hok; [done|].
  simpl. pose proof (handle_app_ok e s Hok) as He.
  destruct (handle e s) as [s'| | |]; try done. by apply IH.
Qed.

(** X12. No sequence of events on the page, from the start, makes a
    handler raise a [TypeError] or store a selection that is not a
    string: every event either returns a state or has its control off the
    page. *)
Theorem session_never_throws (es : list event) :
  session es init ≠ Throws ∧ session es init ≠ Untyped.
Proof.
  pose proof (session_app_ok es init app_ok_init) as H.
  destruct (session es init); by split.
Qed.

(** X13. Every state the page reaches from the start keeps the store as
    the application expects it.  The selection is [null] or the id of an
    object of the set; and every object, in the set and in every snapshot
    of both stacks, has an id made by [id("f")], the category and the size
    of a preset of the library, and a position of three coordinates. *)
Theorem session_keeps_app_ok (es : list event) (s : store) :
  session es init = Done s →
  app_ok s ∧ selection_ok s = true ∧ Forall placed (objects s).
Proof.
  intros H. pose proof (session_app_ok es init app_ok_init) as Hok.
  rewrite H in Hok. split; [done|]. destruct Hok as (? & _ & _ & ?). done.
Qed.

Lemma session_keeps_app_ok_witness :
  selection_ok Visit.rug_moved = true ∧ Forall placed (objects Visit.rug_moved).
Proof.
  destruct (session_keeps_app_ok Visit.rug_moved_events Visit.rug_moved) as (_ & H1 & H2).
  - vm_compute. reflexivity.
  - by split.
Defined.

Lemma existsb_find {A} (f : A → bool) (l : list A) :
  existsb f l = true → ∃ x, find f l = Some x.
Proof.
  induction l as [|a l IH]; simpl; [done|].
  destruct (f a); [by eexists | exact IH].
Qed.

Lemma made_id_truthy (r : string) : truthy (Some (id "f" r)) = true.
Proof. done. Qed.

(** X14. On every page the application reaches, a selection always shows
    in the inspector: the lookup [objects.find(o => o.id === selectedId)]
    finds an object of the set with the selected id, so the fallback for
    a selection without object (line 229) is never drawn. *)
Theorem inspector_shows_selection (es : list event) (s : store) (i : string) :
  session es init = Done s →
  selectedId s = Some i →
  ∃ obj, inspected s = Some obj ∧ obj ∈ objects s ∧ obj !! "id" = Some (VStr i).
Proof.
  intros H Hsel. pose proof (session_app_ok es init app_ok_init) as Hok.
  rewrite H in Hok. destruct Hok as (Hobjs & _ & _ & Hs).
  unfold selection_ok in Hs. rewrite Hsel in Hs.
  destruct (existsb_find _ _ Hs) as [obj Hobj].
  destruct (find_id_is _ _ _ Hobj) as [Hin Hid].
  exists obj. split; [|done].
  unfold inspected. rewrite Hsel.
  pose proof (proj1 (Forall_forall _ _) Hobjs obj Hin) as ((r & Hr) & _).
  assert (i = id "f" r) as -> by congruence.
  by rewrite made_id_truthy.
Qed.

Lemma inspector_shows_selection_witness :
  ∃ obj, inspected Visit.rug_selected = Some obj ∧
         obj !! "id" = Some (VStr "f_k3x").
Proof.
  destruct (inspector_shows_selection Visit.rug_events Visit.rug_selected "f_k3x")
    as (obj & Hobj & _ & Hid).
  - vm_compute. reflexivity.
  - reflexivity.
  - exists obj. by split.
Defined.

(** X15. On every page the application reaches, drawing a frame reads
    the position and the size of every mesh without a [TypeError]: each
    object has three coordinates and the height of its preset. *)
Theorem frames_never_throw (es : list event) (s : store) (o : object) :
  session es init = Done s →
  o ∈ objects s →
  ∃ x y z h, mesh_reads o = Some [x; y; z; VNum h] ∧
             coordinate x ∧ coordinate y ∧ coordinate z.
Proof.
  intros H Hin. pose proof (session_app_ok es init app_ok_init) as Hok.
  rewrite H in Hok. destruct Hok as (Hobjs & _).
  pose proof (proj1 (Forall_forall _ _) Hobjs o Hin)
    as (_ & Hsize & (x & y & z & Hx & Hy & Hz & Hp) & _).
  destruct Hsize as (cat & category & items & it & w & h & d & _ & _ & _ & _ & Hs).
  exists x, y, z, h. split; [|done].
  unfold mesh_reads, prop. by rewrite Hp, Hs.
Qed.

Lemma frames_never_throw_witness :
  Forall (λ o, is_Some (mesh_reads o)) (objects Visit.rug_moved).
Proof.
  apply Forall_forall. intros o Ho.
  destruct (frames_never_throw Visit.rug_moved_events Visit.rug_moved o)
    as (x & y & z & h & H & _).
  - vm_compute. reflexivity.
  - exact Ho.
  - rewrite H. by eexists.
Defined.

(** ** Single handlers *)

(** X16. [handleColorChange] does nothing at all, history included, when
    the selection is [null] or the empty string.  Otherwise it gives the
    color to every object with the selected id, keeps every other field
    of those objects and every other object, keeps the selection, and
    pushes one snapshot. *)
Theorem handleColorChange_spec (hex : string) (s : store) :
  (truthy (selectedId s) = false → handleColorChange hex s = s) ∧
  (∀ i, selectedId s = Some i → i ≠ "" →
     selectedId (handleColorChange hex s) = Some i ∧
     length (undoStack (handleColorChange hex s)) = S (length (undoStack s)) ∧
     length (objects (handleColorChange hex s)) = length (objects s) ∧
     ∀ n o, objects s !! n = Some o →
       ∃ o', objects (handleColorChange hex s) !! n = Some o' ∧
             (id_is i o = false → o' = o) ∧
             (id_is i o = true →
                o' !! "color" = Some (VStr hex) ∧
                ∀ k, k ≠ "color" → o' !! k = o !! k)).
Proof.
  split.
  - intros Ht. unfold handleColorChange. by rewrite Ht.
  - intros i Hsel Hi.
    assert (handleColorChange hex s = updateObject i {[ "color" := VStr hex ]} s) as ->.
    { unfold handleColorChange. rewrite Hsel. simpl.
      destruct (String.eqb i "") eqn:E; [|done].
      by apply String.eqb_eq in E. }
    split; [done|]. split; [|split].
    + simpl. rewrite length_app. simpl. lia.
    + simpl. apply length_fmap.
    + intros n o Hn. rewrite updateObject_lookup, Hn. simpl.
      eexists. split; [reflexivity|]. destruct (id_is i o); split; try done.
      intros _. split.
      * apply spread_patched. apply lookup_singleton_eq.
      * intros k Hk. apply spread_kept. by apply lookup_singleton_ne.
Qed.

Lemma handleColorChange_spec_witness :
  handleColorChange "#fff" (select (Some "") Scenario.one_sofa)
    = select (Some "") Scenario.one_sofa ∧
  selectedId (handleColorChange "#fff" (select (Some "t") (addObject Sample.tag init)))
    = Some "t".
Proof.
  split.
  - apply (handleColorChange_spec "#fff" (select (Some "") Scenario.one_sofa)).
    reflexivity.
  - destruct (handleColorChange_spec "#fff" (select (Some "t") (addObject Sample.tag init)))
      as [_ H].
    destruct (H "t") as [H1 _]; [reflexivity | discriminate | exact H1].
Defined.

Lemma draw_inspector_opened (s : store) (obj : object) :
  draw_inspector s = Opened obj →
  inspected s = Some obj ∧
  is_Some (elem (prop obj "position") 0) ∧ is_Some (elem (prop obj "position") 2).
Proof.
  unfold draw_inspector. destruct (inspected s) as [o|]; [|done].
  destruct (elem (prop o "position") 0) as [p0|] eqn:E0; [|done].
  destruct (elem (prop o "position") 2) as [p2|] eqn:E2; [|done].
  intros [= <-]. rewrite E0, E2. by repeat split.
Qed.

(** X17. When the inspector is drawn with an object, which needs the
    lookup of the selection to find it and its position to be readable,
    the delete button calls [removeObject] with the selected id: it
    removes every object with that id and clears the selection, so that
    the inspector is closed afterwards.  When the position of the found
    object is [undefined] or [null], drawing the inspector raises a
    [TypeError] and the button is not on the page. *)
Theorem delete_closes_inspector (s : store) (obj : object) :
  (draw_inspector s = Opened obj →
     ∃ i, selectedId s = Some i ∧
          handle EDelete s = Done (removeObject i s) ∧
          selectedId (removeObject i s) = None ∧
          draw_inspector (removeObject i s) = Closed ∧
          absent i (objects (removeObject i s))) ∧
  (inspected s = Some obj → elem (prop obj "position") 0 = None →
     draw_inspector s = Broken ∧ handle EDelete s = Throws).
Proof.
  split.
  - intros H. pose proof (draw_inspector_opened s obj H) as (H' & _).
    apply inspected_spec in H' as (i & Hsel & Ht & Hin & Hid).
    exists i. split; [done|]. split; [|split; [|split]].
    + simpl. unfold inspector. by rewrite H, Hid.
    + simpl. rewrite Hsel. by case_decide.
    + unfold draw_inspector, inspected. simpl. rewrite Hsel. by case_decide.
    + simpl. apply Forall_forall. intros o Ho.
      by apply list_elem_of_filter in Ho as [? _].
  - intros H E.
    assert (draw_inspector s = Broken) as Hb
      by (unfold draw_inspector; by rewrite H, E).
    split; [exact Hb|]. simpl. unfold inspector. by rewrite Hb.
Qed.

Lemma delete_closes_inspector_witness :
  (∃ i, handle EDelete Visit.rug_selected = Done (removeObject i Visit.rug_selected) ∧
        draw_inspector (removeObject i Visit.rug_selected) = Closed) ∧
  handle EDelete (select (Some "t") (addObject Sample.tag init)) = Throws.
Proof.
  split.
  - destruct (delete_closes_inspector Visit.rug_selected
                (handleAddFromLib "f_k3x" (mkPreset "Rug" (2, 0.02, 1.5) "#ef4444")%float "Decor"))
      as [H _].
    destruct H as (i & _ & H1 & _ & H2 & _); [vm_compute; reflexivity|].
    exists i. by split.
  - destruct (delete_closes_inspector (select (Some "t") (addObject Sample.tag init)) Sample.tag)
      as [_ H].
    destruct H as [_ H]; [vm_compute; reflexivity | vm_compute; reflexivity | exact H].
Defined.

(** ** The page of the store without history *)

Lemma page_ok_panel (s : Plain.store) :
  Plain.page_ok s → Plain.panel s ≠ Plain.Crash.
Proof.
  intros [_ Hsel]. unfold Plain.panel.
  destruct (truthy (Plain.selectedId s)); [|done].
  destruct (Plain.selectedId s) as [i|]; [|done].
  destruct (existsb_find _ _ Hsel) as [obj ->]. done.
Qed.

Lemma plain_panel_shown (s : Plain.store) (obj : object) :
  Plain.panel s = Plain.Shown obj →
  ∃ i, Plain.selectedId s = Some i ∧ obj ∈ Plain.objects s ∧
       obj !! "id" = Some (VStr i).
Proof.
  unfold Plain.panel. destruct (truthy (Plain.selectedId s)); [|done].
  destruct (Plain.selectedId s) as [i|]; [|done].
  destruct (find (id_is i) (Plain.objects s)) as [o|] eqn:Hf; [|done].
  intros [= <-]. apply find_id_is in Hf as [? ?]. by exists i.
Qed.

Lemma plain_selected_present (i : string) (sel : option string) (objs objs' : list object) :
  (∀ o, o ∈ objs → ∃ o', o' ∈ objs' ∧ (id_is i o = true → id_is i o' = true)) →
  sel = Some i → existsb (id_is i) objs = true → existsb (id_is i) objs' = true.
Proof.
  intros H _ Hex. apply selected_present in Hex as (o & Hin & Hid).
  destruct (H o Hin) as (o' & Hin' & Hid').
  apply selected_present. exists o'. split; [done | by apply Hid'].
Qed.

Lemma plain_handle_ok (e : Plain.event) (s : Plain.store) :
  Plain.page_ok s →
  match Plain.handle e s with
  | Plain.Done s' => Plain.page_ok s'
  | Plain.NotRendered => True
  | Plain.Throws | Plain.Untyped => False
  end.
Proof.
  intros Hok. pose proof Hok as [Hobjs Hsel].
  assert (∀ k : string → Plain.outcome,
            (∀ i, Plain.selectedId s = Some i →
                  match k i with
                  | Plain.Done s' => Plain.page_ok s'
                  | Plain.NotRendered => True | _ => False
                  end) →
            match Plain.on_panel s k with
            | Plain.Done s' => Plain.page_ok s'
            | Plain.NotRendered => True | _ => False
            end) as Hpanel.
  { intros k Hk. unfold Plain.on_panel.
    pose proof (page_ok_panel s Hok) as Hc.
    destruct (Plain.panel s) as [|obj|] eqn:Hp; [done| |done].
    apply plain_panel_shown in Hp as (i & Hi & _ & Hid).
    rewrite Hid. by apply Hk. }
  destruct e as [item r|n|hex|]; simpl.
  - split; simpl.
    + apply Forall_app. split; [done|]. constructor; [|constructor].
      unfold Plain.handleAdd. destruct (item_size item) as [[w h] d]. by exists r.
    + destruct (Plain.selectedId s) as [i|]; [|done].
      rewrite existsb_app, Hsel. done.
  - destruct (Plain.objects s !! n) as [o|] eqn:Ho; [|done].
    assert (o ∈ Plain.objects s) as Hin by (by eapply list_elem_of_lookup_2).
    pose proof (proj1 (Forall_forall _ _) Hobjs o Hin) as [j Hj].
    rewrite Hj. split; [done|]. simpl.
    apply selected_present. exists o. split; [done | by apply id_is_true].
  - apply Hpanel. intros i Hi. split; simpl.
    + apply Forall_fmap. eapply Forall_impl; [exact Hobjs|].
      intros o [j Hj]. simpl. destruct (id_is i o); [|by exists j].
      exists j. rewrite spread_kept; [done|]. by apply lookup_singleton_ne.
    + rewrite Hi in Hsel |- *.
      apply selected_present in Hsel as (o & Hin & Hid).
      apply selected_present.
      exists (if id_is i o then spread o {[ "color" := VStr hex ]} else o). split.
      * by apply (list_elem_of_fmap_2 (λ o, if id_is i o then spread o _ else o)).
      * rewrite Hid. rewrite id_is_spread; [done|]. by apply lookup_singleton_ne.
  - apply Hpanel. intros i Hi. split; simpl.
    + apply Forall_forall. intros o Ho.
      apply list_elem_of_filter in Ho as [_ Ho].
      by apply (proj1 (Forall_forall _ _) Hobjs).
    + rewrite Hi. by case_decide.
Qed.

Lemma plain_session_ok (es : list Plain.event) (s : Plain.store) :
  Plain.page_ok s →
  match Plain.session es s with
  | Plain.Done s' => Plain.page_ok s'
  | Plain.NotRendered => True
  | Plain.Throws | Plain.Untyped => False
  end.
Proof.
  revert s. induction es as [|e es IH]; intros s Hok; simpl;
    pose proof (page_ok_panel s Hok) as Hp;
    destruct (Plain.panel s) eqn:E; try done.
  - pose proof (plain_handle_ok e s Hok) as He.
    destruct (Plain.handle e s); try done. by apply IH.
  - pose proof (plain_handle_ok e s Hok) as He.
    destruct (Plain.handle e s); try done. by apply IH.
Qed.

(** X18. The page of the store without history reads the color of the
    selected object without checking that the lookup found one.  No
    sequence of events from the start makes that read fail: whenever the
    panel is drawn the selected object is in the set, because the page
    only selects objects of the set and deleting clears the selection. *)
Theorem plain_page_never_throws (es : list Plain.event) :
  Plain.session es Plain.init ≠ Plain.Throws ∧
  Plain.session es Plain.init ≠ Plain.Untyped ∧
  ∀ s, Plain.session es Plain.init = Plain.Done s →
       Plain.page_ok s ∧ Plain.panel s ≠ Plain.Crash.
Proof.
  assert (Plain.page_ok Plain.init) as H0 by (split; [constructor | done]).
  pose proof (plain_session_ok es Plain.init H0) as H.
  destruct (Plain.session es Plain.init) as [s'| | |]; try done.
  split; [done|]. split; [done|].
  intros s0 [= <-]. split; [done | by apply page_ok_panel].
Qed.

Lemma plain_page_never_throws_witness :
  Plain.page_ok Visit.chair_deleted ∧ Plain.panel Visit.chair_deleted ≠ Plain.Crash.
Proof.
  destruct (plain_page_never_throws Visit.chair_events) as (_ & _ & H).
  apply H. vm_compute. reflexivity.
Defined.

(** ** What the controls never write *)

Lemma inspector_patch_fixed (o patch : object) :
  inspector_patch patch → fixed_fields (spread o patch) = fixed_fields o.
Proof.
  intros Hp. unfold fixed_fields.
  destruct Hp; by rewrite !spread_kept by (by apply lookup_singleton_ne).
Qed.

Lemma update_fixed (i : string) (patch : object) (s : store) :
  inspector_patch patch →
  fixed_fields <$> objects (updateObject i patch s) = fixed_fields <$> objects s.
Proof.
  intros Hp. simpl. rewrite <- list_fmap_compose. apply list_fmap_ext.
  intros _ o _. simpl. destruct (id_is i o); [by apply inspector_patch_fixed | done].
Qed.

Lemma inspector_done (s s' : store) (k : string → object → outcome) :
  inspector s k = Done s' →
  ∃ i obj, inspected s = Some obj ∧ obj !! "id" = Some (VStr i) ∧ k i obj = Done s'.
Proof.
  unfold inspector. destruct (draw_inspector s) as [|obj|] eqn:Hd; [done| |done].
  apply draw_inspector_opened in Hd as [Hobj _].
  destruct (obj !! "id") as [[| | | |i| |]|] eqn:Hid; try done.
  intros H. by exists i, obj.
Qed.

(** X19. No control of the page writes the id, the category, the size or
    [meta] of an object: in any state, an event that edits or selects
    leaves these four fields of every object, in order, as they were.
    Adding appends one object and leaves the others as they were. *)
Theorem controls_keep_identity (e : event) (s s' : store) :
  handle e s = Done s' →
  (edits e = true → fixed_fields <$> objects s' = fixed_fields <$> objects s) ∧
  (∀ cat item r, e = EAdd cat item r →
     ∃ obj, objects s' = objects s ++ [obj] ∧ obj !! "id" = Some (VStr (id "f" r))).
Proof.
  intros H. split.
  - intros He. destruct e as [cat item r|n| | |v|hex|x|z|a| |]; try done; simpl in H.
    + destruct (objects s !! n) as [o|]; [|done].
      destruct (o !! "id") as [[| | | |j| |]|]; try done. by injection H as <-.
    + apply inspector_done in H as (i & obj & _ & _ & [= <-]).
      apply update_fixed. constructor.
    + apply inspector_done in H as (i & obj & Hobj & _ & [= <-]).
      apply inspected_spec in Hobj as (j & Hsel & Ht & _).
      unfold handleColorChange. rewrite Ht, Hsel.
      apply update_fixed. constructor.
    + apply inspector_done in H as (i & obj & _ & _ & H).
      unfold patch_x in H.
      destruct (elem (prop obj "position") 1) as [p1|]; [|done].
      destruct (elem (prop obj "position") 2) as [p2|]; [|done].
      simpl in H. injection H as <-.
      simpl. rewrite <- list_fmap_compose. apply list_fmap_ext.
      intros _ o _. simpl. destruct (id_is i o); [|done].
      unfold fixed_fields. by rewrite !spread_kept by (by apply lookup_singleton_ne).
    + apply inspector_done in H as (i & obj & _ & _ & H).
      unfold patch_z in H.
      destruct (elem (prop obj "position") 0) as [p0|]; [|done].
      destruct (elem (prop obj "position") 1) as [p1|]; [|done].
      simpl in H. injection H as <-.
      simpl. rewrite <- list_fmap_compose. apply list_fmap_ext.
      intros _ o _. simpl. destruct (id_is i o); [|done].
      unfold fixed_fields. by rewrite !spread_kept by (by apply lookup_singleton_ne).
    + apply inspector_done in H as (i & obj & _ & _ & [= <-]).
      apply update_fixed. constructor.
    + apply inspector_done in H as (i & obj & _ & _ & H).
      unfold patch_reset in H.
      destruct (elem (prop obj "position") 1) as [p1|]; [|done].
      simpl in H. injection H as <-.
      simpl. rewrite <- list_fmap_compose. apply list_fmap_ext.
      intros _ o _. simpl. destruct (id_is i o); [|done].
      unfold fixed_fields. by rewrite !spread_kept by (by apply lookup_singleton_ne).
  - intros cat item r ->. simpl in H.
    destruct (library !! cat) as [[category items]|]; [|done].
    destruct (items !! item) as [it|]; [|done].
    injection H as <-. eexists. split; [reflexivity|].
    unfold handleAddFromLib. by destruct (item_size it) as [[w h] d].
Qed.

Lemma controls_keep_identity_witness :
  fixed_fields <$> objects (updateObject "f_k3x"
                              {[ "position" := VArr [VNum nan; VNum 0.01; VNum 0] ]}
                              Visit.rug_selected)
  = fixed_fields <$> objects Visit.rug_selected.
Proof.
  destruct (controls_keep_identity (EPosX nan) Visit.rug_selected
              (updateObject "f_k3x"
                 {[ "position" := VArr [VNum nan; VNum 0.01; VNum 0] ]}
                 Visit.rug_selected)) as [H _].
  - vm_compute. reflexivity.
  - apply H. reflexivity.
Defined.

(** ** Selecting *)

(** X20. The selection is not part of the history: [select] leaves the
    object set and both stacks as they are, and an [undo] or a [redo]
    that has a snapshot to restore forgets the selection made before it,
    giving the state it would have given without that [select]. *)
Theorem select_untracked (sel : option string) (s : store) :
  objects (select sel s) = objects s ∧
  undoStack (select sel s) = undoStack s ∧
  redoStack (select sel s) = redoStack s ∧
  (undoStack s ≠ [] → undo (select sel s) = undo s) ∧
  (redoStack s ≠ [] → redo (select sel s) = redo s).
Proof.
  split; [done|]. split; [done|]. split; [done|]. split; intros Hne.
  - destruct (nonempty_snoc _ Hne) as (st & x & E).
    rewrite (undo_nonempty s st x E).
    by rewrite (undo_nonempty (select sel s) st x E).
  - destruct (nonempty_snoc _ Hne) as (st & x & E).
    rewrite (redo_nonempty s st x E).
    by rewrite (redo_nonempty (select sel s) st x E).
Qed.

Lemma select_untracked_witness :
  undo (select (Some "t") (addObject Sample.tag init)) = undo (addObject Sample.tag init).
Proof.
  destruct (select_untracked (Some "t") (addObject Sample.tag init)) as (_ & _ & _ & H & _).
  apply H. vm_compute. discriminate.
Defined.

(** ** Placing an object *)

Lemma representable_app (l1 l2 : list object) :
  representable l1 → representable l2 → representable (l1 ++ l2).
Proof.
  unfold representable. rewrite !roundtrip_map, fmap_app. by intros -> ->.
Qed.

(** X21. Placing a preset of the library on a scene whose object set is
    JSON-representable leaves a JSON-representable object set, whatever
    the random part of the new id: the snapshot taken by the addition
    holds the scene exactly, and an [undo] right after it shows the very
    same objects. *)
Theorem placing_survives_snapshot (cat item : nat) (r : string) (s s' : store) :
  representable (objects s) →
  handle (EAdd cat item r) s = Done s' →
  representable (objects s') ∧
  length (objects s') = S (length (objects s)) ∧
  objects (undo s') = objects s'.
Proof.
  intros Hrep H. simpl in H.
  destruct (library !! cat) as [[category items]|] eqn:Hcat; [|done].
  destruct (items !! item) as [it|] eqn:Hitem; [|done].
  injection H as <-.
  assert (representable (objects s ++ [handleAddFromLib (id "f" r) it category])) as Hnew.
  { apply representable_app; [done|].
    apply library_objects_representable.
    apply list_elem_of_join. exists items. split.
    - by eapply list_elem_of_lookup_2.
    - apply list_elem_of_fmap. exists (category, items). split; [done|].
      by eapply list_elem_of_lookup_2. }
  split; [exact Hnew|]. split.
  - simpl. rewrite length_app. simpl. lia.
  - change (addObject ?o s) with (mutate (MAdd o) s).
    rewrite undo_mutate. exact Hnew.
Qed.

Lemma placing_survives_snapshot_witness :
  objects (undo (addObject (handleAddFromLib "f_k3x" (mkPreset "Rug" (2, 0.02, 1.5) "#ef4444")%float "Decor") init))
  = objects (addObject (handleAddFromLib "f_k3x" (mkPreset "Rug" (2, 0.02, 1.5) "#ef4444")%float "Decor") init).
Proof.
  destruct (placing_survives_snapshot 3 0 "k3x" init
              (addObject (handleAddFromLib "f_k3x" (mkPreset "Rug" (2, 0.02, 1.5) "#ef4444")%float "Decor") init))
    as (_ & _ & H).
  - vm_compute. reflexivity.
  - vm_compute. reflexivity.
  - exact H.
Defined.
